(** * Cooperative cancellation in the context demonstration

    Two Go programs are verified here: the demonstration with a
    cancellation cause ([leakyCauldron], [hogwarts], [main]) and the plain
    one ([leakyWorker], [safeWorker], [main]).  Goroutine bodies are
    interaction trees over the operations the source performs; the part of
    Go's [context] package the programs call is a pure store of cancel
    contexts. *)

From Stdlib Require Import ZArith Arith List String Ascii Bool Lia.
From ITree Require Import ITree.
Import ListNotations.
Import ITreeNotations.
Local Open Scope itree_scope.
Local Open Scope string_scope.
Local Open Scope list_scope.
Local Open Scope Z_scope.

Set Implicit Arguments.

(* ===================================================================== *)
(** * Go's [context] package, as far as the programs use it *)
(* ===================================================================== *)

Module context.

(** An [error] value; Go's [nil] error is [None : option error]. *)
Inductive error : Type :=
| Canceled                       (* context.Canceled *)
| errorString (s : string).      (* what fmt.Errorf / errors.New build *)

(** [err.Error()]. *)
Definition Error (e : error) : string :=
  match e with
  | Canceled => "context canceled"
  | errorString s => s
  end.

(** The fields of [cancelCtx] that [cancel], [Done], [Err] and [Cause]
    touch: the done channel (closed or not), [err] and [cause]. *)
Record cancelCtx : Type := mkCancelCtx {
  done : bool;                   (* true once the done channel is closed *)
  err : option error;
  cause : option error
}.

(** A cancel context as [withCancel] makes it. *)
Definition newCancelCtx : cancelCtx :=
  {| done := false; err := None; cause := None |}.

(** [c.cancel(removeFromParent, err, cause)]:
    a nil cause defaults to [err]; a context whose [err] is already set is
    left as it is; otherwise [err] and [cause] are stored and the done
    channel is closed.  (The contexts of these programs have no children.) *)
Definition cancel (c : cancelCtx) (e : error) (cs : option error) : cancelCtx :=
  let cs := match cs with None => e | Some x => x end in
  match err c with
  | Some _ => c                                     (* already canceled *)
  | None => {| done := true; err := Some e; cause := Some cs |}
  end.

(** The cancel contexts that exist, by address. *)
Definition store : Type := list cancelCtx.

(** A [context.Context] value: the background context or a pointer to a
    cancel context. *)
Inductive Context : Type :=
| Background
| cancelCtxAt (p : nat).

(** The closures returned by [WithCancelCause] and [WithCancel]; each
    captures the cancel context it was made for. *)
Record CancelCauseFunc : Type := mkCancelCauseFunc { cc_target : nat }.
Record CancelFunc : Type := mkCancelFunc { c_target : nat }.

Definition lookup (s : store) (p : nat) : option cancelCtx := nth_error s p.

Fixpoint update (s : store) (p : nat) (f : cancelCtx -> cancelCtx) : store :=
  match s, p with
  | [], _ => []
  | c :: s', O => f c :: s'
  | c :: s', S p' => c :: update s' p' f
  end.

(** [context.WithCancelCause(context.Background())]: a fresh cancel context.
    The parent is the background context, which is never canceled, so
    nothing is registered with it. *)
Definition WithCancelCause (s : store) : store * (Context * CancelCauseFunc) :=
  (s ++ [newCancelCtx], (cancelCtxAt (List.length s), mkCancelCauseFunc (List.length s))).

(** [context.WithCancel(context.Background())]. *)
Definition WithCancel (s : store) : store * (Context * CancelFunc) :=
  (s ++ [newCancelCtx], (cancelCtxAt (List.length s), mkCancelFunc (List.length s))).

(** Calling a [CancelCauseFunc]: [c.cancel(true, Canceled, cause)]. *)
Definition callCancelCause (f : CancelCauseFunc) (cs : option error) (s : store) : store :=
  update s (cc_target f) (fun c => cancel c Canceled cs).

(** Calling a [CancelFunc]: [c.cancel(true, Canceled, nil)]. *)
Definition callCancel (f : CancelFunc) (s : store) : store :=
  update s (c_target f) (fun c => cancel c Canceled None).

(** [ctx.Done()] seen by a receiver: [true] when a receive from it returns
    at once (the channel is closed).  The background context's channel is
    nil, and a receive from a nil channel never returns. *)
Definition Done (s : store) (ctx : Context) : bool :=
  match ctx with
  | Background => false
  | cancelCtxAt p => match lookup s p with Some c => done c | None => false end
  end.

(** [ctx.Err()]. *)
Definition Err (s : store) (ctx : Context) : option error :=
  match ctx with
  | Background => None
  | cancelCtxAt p => match lookup s p with Some c => err c | None => None end
  end.

(** [context.Cause(ctx)]: the [cause] field of the nearest cancel context;
    for a context without one, [ctx.Err()]. *)
Definition Cause (s : store) (ctx : Context) : option error :=
  match ctx with
  | Background => Err s Background
  | cancelCtxAt p => match lookup s p with Some c => cause c | None => None end
  end.

(** The calls that change the store. *)
Variant op : Type :=
| OpWithCancelCause
| OpWithCancel
| OpCancelCause (f : CancelCauseFunc) (cs : option error)
| OpCancel (f : CancelFunc).

Definition apply (o : op) (s : store) : store :=
  match o with
  | OpWithCancelCause => fst (WithCancelCause s)
  | OpWithCancel => fst (WithCancel s)
  | OpCancelCause f cs => callCancelCause f cs s
  | OpCancel f => callCancel f s
  end.

Definition apply_all (os : list op) (s : store) : store :=
  fold_left (fun s o => apply o s) os s.

(** [o] is a cancel call for the context [ctx]. *)
Definition targets (o : op) (ctx : Context) : bool :=
  match o, ctx with
  | OpCancelCause f _, cancelCtxAt p => Nat.eqb (cc_target f) p
  | OpCancel f, cancelCtxAt p => Nat.eqb (c_target f) p
  | _, _ => false
  end.

(** The context at [p] is canceled and its cause is [C]. *)
Definition canceled_with (s : store) (p : nat) (C : error) : Prop :=
  exists c, lookup s p = Some c /\ done c = true /\ err c <> None /\ cause c = Some C.

(** A context whose [err] is set has its [cause] set, as in every store
    built by the calls of the package. *)
Definition caused (s : store) : Prop :=
  forall p c, lookup s p = Some c -> err c <> None -> cause c <> None.

End context.
Import context.

(** [%v] applied to an error value. *)
Definition fmt_v (e : option error) : string :=
  match e with
  | None => "<nil>"
  | Some x => Error x
  end.

(** The newline character of the source's string literals. *)
Definition nl : string := String (ascii_of_nat 10) EmptyString.

(* ===================================================================== *)
(** * What a goroutine can do *)
(* ===================================================================== *)

(** A ticker, by the number of the [time.NewTicker] call that made it. *)
Definition Ticker : Type := nat.

(** The case a [select] over [ticker.C] and [ctx.Done()] took. *)
Variant select_case : Type := TickerCase | DoneCase.

(** The functions started with a [go] statement. *)
Variant func : Type :=
| fn_leakyCauldron | fn_hogwarts | fn_leakyWorker | fn_safeWorker.

Definition func_eqb (a b : func) : bool :=
  match a, b with
  | fn_leakyCauldron, fn_leakyCauldron | fn_hogwarts, fn_hogwarts
  | fn_leakyWorker, fn_leakyWorker | fn_safeWorker, fn_safeWorker => true
  | _, _ => false
  end.

Variant goE : Type -> Type :=
| Print (s : string) : goE unit                    (* fmt.Print, Printf, Println *)
| Sleep (ms : Z) : goE unit                        (* time.Sleep *)
| NewTicker (ms : Z) : goE Ticker                  (* time.NewTicker *)
| TickerStop (t : Ticker) : goE unit               (* ticker.Stop() *)
| Select (t : Ticker) (ctx : Context) : goE select_case
| CtxErr (ctx : Context) : goE (option error)      (* ctx.Err() *)
| CtxCause (ctx : Context) : goE (option error)    (* context.Cause(ctx) *)
| NewCancelCause : goE (Context * CancelCauseFunc) (* context.WithCancelCause(Background) *)
| NewCancel : goE (Context * CancelFunc)           (* context.WithCancel(Background) *)
| CancelCause (f : CancelCauseFunc) (cs : option error) : goE unit
| Cancel (f : CancelFunc) : goE unit
| Go (f : func) (ctx : Context) : goE unit.        (* go f(ctx) *)

Definition Println (s : string) : goE unit := Print (s ++ nl)%string.

(* ===================================================================== *)
(** * The demonstration with a cancellation cause *)
(* ===================================================================== *)

Module CauseDemo.

Definition leaky_enter : string :=
  ("Entering the Leaky Cauldron. It will never exit gracefully." ++ nl)%string.
Definition leaky_work : string := ("Leaky Cauldron Doing work..." ++ nl)%string.

(** [leakyCauldron]: the context is never looked at. *)
Definition leakyCauldron (ctx : Context) : itree goE unit :=
  ITree.trigger (Print leaky_enter) ;;
  ITree.forever (
    ITree.trigger (Sleep 500) ;;
    ITree.trigger (Print leaky_work)).

Definition hog_enter : string := ("Entering Hogwarts. It will check if ctx.Done()." ++ nl)%string.
Definition hog_work : string := ("Hogwarts Doing work..." ++ nl)%string.
Definition hog_received : string :=
  ("Hogwart's received cancellation signal from ctx.Done(). Exiting now." ++ nl)%string.
Definition hog_err_line (e : option error) : string :=
  ("Cancellation error (ctx.Err()): " ++ fmt_v e ++ nl)%string.
Definition hog_cause_line (e : option error) : string :=
  ("Cancellation cause (context.Cause()): " ++ fmt_v e ++ nl)%string.

(** One turn of the [for { select { ... } }] of [hogwarts]: [inl tt] goes
    round again, [inr tt] is the [return]. *)
Definition hogwarts_body (ticker : Ticker) (ctx : Context) (_ : unit)
  : itree goE (unit + unit) :=
  c <- ITree.trigger (Select ticker ctx) ;;
  match c with
  | TickerCase =>
      ITree.trigger (Print hog_work) ;;
      Ret (inl tt)
  | DoneCase =>
      ITree.trigger (Print hog_received) ;;
      e <- ITree.trigger (CtxErr ctx) ;;
      ITree.trigger (Print (hog_err_line e)%string) ;;
      cause <- ITree.trigger (CtxCause ctx) ;;
      ITree.trigger (Print (hog_cause_line cause)%string) ;;
      Ret (inr tt)
  end.

(** [hogwarts]: the deferred [ticker.Stop()] runs when the loop returns. *)
Definition hogwarts (ctx : Context) : itree goE unit :=
  ITree.trigger (Print hog_enter) ;;
  ticker <- ITree.trigger (NewTicker 200) ;;
  ITree.iter (hogwarts_body ticker ctx) tt ;;
  ITree.trigger (TickerStop ticker).

Definition causeError : error := errorString "Voldemort is here: all tasks stopped".

(** [main]: the deferred [cancel(nil)] runs when [main] returns. *)
Definition main : itree goE unit :=
  ITree.trigger (Print (nl ++ nl ++ "Starting Context Demonstration with Cancel Cause..." ++ nl ++ nl)%string) ;;
  ITree.trigger (Println "---------------------------------------------------") ;;
  '(ctx, cancel) <- ITree.trigger NewCancelCause ;;
  ITree.trigger (Go fn_leakyCauldron Background) ;;
  ITree.trigger (Go fn_hogwarts ctx) ;;
  ITree.trigger (Println (nl ++ "Allowing workers to run for 1.5 seconds...")%string) ;;
  ITree.trigger (Sleep 1500) ;;
  ITree.trigger (Print (nl ++ ">>> Calling cancel(cause) with cause: '" ++ fmt_v (Some causeError) ++ "' <<<" ++ nl)%string) ;;
  ITree.trigger (CancelCause cancel (Some causeError)) ;;
  ITree.trigger (Print ("Waiting 2 seconds for workers to respond to cancellation..." ++ nl ++ nl ++ nl)%string) ;;
  ITree.trigger (Sleep 2000) ;;
  ITree.trigger (Print (nl ++ nl ++ "---------------------------------------------------" ++ nl)%string) ;;
  ITree.trigger (Print ("Demonstration complete. " ++ nl ++ nl)%string) ;;
  ITree.trigger (Println "Hogwarts has shutdown gracefully, reporting the 'voldemort is here' cause.") ;;
  ITree.trigger (Println "Leaky Cauldron is still running (goroutine leak).") ;;
  ITree.trigger (CancelCause cancel None).

End CauseDemo.

(* ===================================================================== *)
(** * The plain demonstration *)
(* ===================================================================== *)

Module PlainDemo.

Definition leaky_enter : string :=
  ("Leaky Worker started. It will never exit gracefully." ++ nl)%string.
Definition leaky_work : string := ("Leaky Worker: Doing work..." ++ nl)%string.

(** [leakyWorker]: the context is never looked at. *)
Definition leakyWorker (ctx : Context) : itree goE unit :=
  ITree.trigger (Print leaky_enter) ;;
  ITree.forever (
    ITree.trigger (Sleep 500) ;;
    ITree.trigger (Print leaky_work)).

Definition safe_enter : string := ("Safe Worker started. It checks ctx.Done()." ++ nl)%string.
Definition safe_work : string := ("Safe Worker Doing work..." ++ nl)%string.
Definition safe_received : string :=
  ("Safe Worker received cancellation signal from ctx.Done(). Exiting now." ++ nl)%string.
Definition safe_reason_line (e : option error) : string :=
  ("Cancellation reason: " ++ fmt_v e ++ nl)%string.

(** One turn of the [for { select { ... } }] of [safeWorker]. *)
Definition safeWorker_body (ticker : Ticker) (ctx : Context) (_ : unit)
  : itree goE (unit + unit) :=
  c <- ITree.trigger (Select ticker ctx) ;;
  match c with
  | TickerCase =>
      ITree.trigger (Print safe_work) ;;
      Ret (inl tt)
  | DoneCase =>
      ITree.trigger (Print safe_received) ;;
      e <- ITree.trigger (CtxErr ctx) ;;
      ITree.trigger (Print (safe_reason_line e)) ;;
      Ret (inr tt)
  end.

(** [safeWorker]: the deferred [ticker.Stop()] runs when the loop returns. *)
Definition safeWorker (ctx : Context) : itree goE unit :=
  ITree.trigger (Print safe_enter) ;;
  ticker <- ITree.trigger (NewTicker 200) ;;
  ITree.iter (safeWorker_body ticker ctx) tt ;;
  ITree.trigger (TickerStop ticker).

(** [main]: the deferred [cancel()] runs when [main] returns. *)
Definition main : itree goE unit :=
  ITree.trigger (Println "Starting Context Demonstration...") ;;
  ITree.trigger (Println "---------------------------------") ;;
  '(ctx, cancel) <- ITree.trigger NewCancel ;;
  ITree.trigger (Go fn_leakyWorker Background) ;;
  ITree.trigger (Go fn_safeWorker ctx) ;;
  ITree.trigger (Println (nl ++ "Allowing workers to run for 1.5 seconds...")%string) ;;
  ITree.trigger (Sleep 1500) ;;
  ITree.trigger (Println (nl ++ ">>> Calling cancel() to signal the context to stop <<<")%string) ;;
  ITree.trigger (Cancel cancel) ;;
  ITree.trigger (Println "Waiting 2 seconds for workers to respond to cancellation...") ;;
  ITree.trigger (Sleep 2000) ;;
  ITree.trigger (Println (nl ++ "---------------------------------")%string) ;;
  ITree.trigger (Println "Demonstration complete.") ;;
  ITree.trigger (Println "Safe Worker has exited gracefully.") ;;
  ITree.trigger (Println "Leaky Worker is still running in the background (goroutine leak).") ;;
  ITree.trigger (Cancel cancel).

End PlainDemo.

(** The body a [go] statement starts. *)
Definition body_of (f : func) (ctx : Context) : itree goE unit :=
  match f with
  | fn_leakyCauldron => CauseDemo.leakyCauldron ctx
  | fn_hogwarts => CauseDemo.hogwarts ctx
  | fn_leakyWorker => PlainDemo.leakyWorker ctx
  | fn_safeWorker => PlainDemo.safeWorker ctx
  end.

(** The loop of each worker together with what follows it, so that the
    state of a worker at the head of its loop has a name. *)
Definition leaky_loop (work : string) : itree goE unit :=
  ITree.forever (ITree.trigger (Sleep 500) ;; ITree.trigger (Print work)).

Definition hog_loop (t : Ticker) (ctx : Context) : itree goE unit :=
  ITree.iter (CauseDemo.hogwarts_body t ctx) tt ;; ITree.trigger (TickerStop t).

Definition safe_loop (t : Ticker) (ctx : Context) : itree goE unit :=
  ITree.iter (PlainDemo.safeWorker_body t ctx) tt ;; ITree.trigger (TickerStop t).

(* ===================================================================== *)
(** * Traces of one goroutine *)
(* ===================================================================== *)

(** An operation together with what it returned. *)
Variant label : Type :=
| LPrint (s : string)
| LSleep (ms : Z)
| LNewTicker (ms : Z) (t : Ticker)
| LTickerStop (t : Ticker)
| LSelect (t : Ticker) (ctx : Context) (c : select_case)
| LErr (ctx : Context) (e : option error)
| LCause (ctx : Context) (e : option error)
| LNewCancelCause (ctx : Context) (f : CancelCauseFunc)
| LNewCancel (ctx : Context) (f : CancelFunc)
| LCancelCause (f : CancelCauseFunc) (cs : option error)
| LCancel (f : CancelFunc)
| LGo (f : func) (ctx : Context).

Definition label_of {X : Type} (e : goE X) : X -> label :=
  match e in goE X return X -> label with
  | Print s => fun _ => LPrint s
  | Sleep ms => fun _ => LSleep ms
  | NewTicker ms => fun t => LNewTicker ms t
  | TickerStop t => fun _ => LTickerStop t
  | Select t ctx => fun c => LSelect t ctx c
  | CtxErr ctx => fun e => LErr ctx e
  | CtxCause ctx => fun e => LCause ctx e
  | NewCancelCause => fun r => LNewCancelCause (fst r) (snd r)
  | NewCancel => fun r => LNewCancel (fst r) (snd r)
  | CancelCause f cs => fun _ => LCancelCause f cs
  | Cancel f => fun _ => LCancel f
  | Go f ctx => fun _ => LGo f ctx
  end.

Section Traces.

Context {R : Type}.

(** A silent step: the bookkeeping between two turns of a loop. *)
Definition tau_step (t u : itree goE R) : Prop :=
  match observe t with
  | TauF t' => u = t'
  | _ => False
  end.

(** [t] performs an operation, the environment answers, [u] is what is
    left to run. *)
Definition vis_step (t : itree goE R) (l : label) (u : itree goE R) : Prop :=
  match observe t with
  | VisF e k => exists x, l = label_of e x /\ u = k x
  | _ => False
  end.

(** [t] has returned [r]. *)
Definition returned (t : itree goE R) (r : R) : Prop :=
  match observe t with
  | RetF r' => r = r'
  | _ => False
  end.

(** [runs t ls u]: [t] performs the operations [ls], whatever the
    environment answers, and continues as [u]. *)
Inductive runs : itree goE R -> list label -> itree goE R -> Prop :=
| runs_nil t : runs t [] t
| runs_tau t u ls v : tau_step t u -> runs u ls v -> runs t ls v
| runs_vis t l u ls v : vis_step t l u -> runs u ls v -> runs t (l :: ls) v.

(** [ls] is the beginning of an execution of [t]. *)
Definition trace (t : itree goE R) (ls : list label) : Prop :=
  exists u, runs t ls u.

(** [t] performs exactly [ls] and returns [r]. *)
Definition halts (t : itree goE R) (ls : list label) (r : R) : Prop :=
  exists u, runs t ls u /\ returned u r.

(** An environment: its answer to the [i]-th operation of a goroutine. *)
Definition env : Type := nat -> forall X : Type, goE X -> X.

(** What [t] does in the environment [rho], from its [i]-th operation on. *)
Fixpoint exec (rho : env) (fuel : nat) (i : nat) (t : itree goE R) : list label :=
  match fuel with
  | O => []
  | S fuel' =>
      match observe t with
      | RetF _ => []
      | TauF u => exec rho fuel' i u
      | VisF e k => let x := rho i _ e in label_of e x :: exec rho fuel' (S i) (k x)
      end
  end.

End Traces.

(** ** Shapes of traces *)

Definition prefix_of (ls full : list label) : Prop :=
  exists rest, full = ls ++ rest.

(** [n] turns of a leaky loop. *)
Fixpoint beats (work : string) (n : nat) : list label :=
  match n with
  | O => []
  | S n' => LSleep 500 :: LPrint work :: beats work n'
  end.

(** The entry line of a leaky worker and [n] turns of its loop. *)
Definition leaky_run (enter work : string) (n : nat) : list label :=
  LPrint enter :: beats work n.

(** [n] turns of a cooperative loop that took the ticker case. *)
Fixpoint ticks (work : string) (t : Ticker) (ctx : Context) (n : nat) : list label :=
  match n with
  | O => []
  | S n' => LSelect t ctx TickerCase :: LPrint work :: ticks work t ctx n'
  end.

(** The turn that takes the done case, up to the error report. *)
Definition coop_exit (received : string) (err_line : option error -> string)
    (t : Ticker) (ctx : Context) (e : option error) : list label :=
  [LSelect t ctx DoneCase; LPrint received; LErr ctx e; LPrint (err_line e)].

(** A whole execution of a cooperative worker: the entry line, a ticker of
    200ms, [n] turns of work, the turn that takes the done case and reports
    the error, what the worker reports besides ([extra]), and the deferred
    [ticker.Stop()]. *)
Definition coop_run (enter work received : string) (err_line : option error -> string)
    (extra : list label) (t : Ticker) (ctx : Context) (n : nat) (e : option error)
  : list label :=
  [LPrint enter; LNewTicker 200 t] ++ ticks work t ctx n ++
  coop_exit received err_line t ctx e ++ extra ++ [LTickerStop t].

(** What [hogwarts] reports besides the error: the cause. *)
Definition hog_extra (ctx : Context) (c : option error) : list label :=
  [LCause ctx c; LPrint (CauseDemo.hog_cause_line c)].

Definition hog_run (t : Ticker) (ctx : Context) (n : nat) (e c : option error) : list label :=
  coop_run CauseDemo.hog_enter CauseDemo.hog_work CauseDemo.hog_received
    CauseDemo.hog_err_line (hog_extra ctx c) t ctx n e.

Definition safe_run (t : Ticker) (ctx : Context) (n : nat) (e : option error) : list label :=
  coop_run PlainDemo.safe_enter PlainDemo.safe_work PlainDemo.safe_received
    PlainDemo.safe_reason_line [] t ctx n e.

(** The operation is a [select] that took the done case. *)
Definition is_done_select (l : label) : bool :=
  match l with
  | LSelect _ _ DoneCase => true
  | _ => false
  end.

(** The operation prints the line [work]. *)
Definition is_print (work : string) (l : label) : bool :=
  match l with
  | LPrint s => String.eqb s work
  | _ => false
  end.

(** The operation makes, reads, cancels or passes on a context. *)
Definition touches_context (l : label) : bool :=
  match l with
  | LPrint _ | LSleep _ | LNewTicker _ _ | LTickerStop _ => false
  | _ => true
  end.

Definition work_count (work : string) (ls : list label) : nat :=
  List.length (filter (is_print work) ls).

(** The environment in which every [select] takes the case [c], every
    read of a context returns [e], and the context made is [ctx0]. *)
Definition env_const (c : select_case) (e : option error) : env :=
  fun _ X ev =>
    match ev in goE X return X with
    | Print _ | Sleep _ | TickerStop _ | CancelCause _ _ | Cancel _ | Go _ _ => tt
    | NewTicker _ => O
    | Select _ _ => c
    | CtxErr _ | CtxCause _ => e
    | NewCancelCause => (cancelCtxAt 0, mkCancelCauseFunc 0)
    | NewCancel => (cancelCtxAt 0, mkCancelFunc 0)
    end.

(* ===================================================================== *)
(** * The whole program: goroutines, the clock, tickers and the store *)
(* ===================================================================== *)

(** Time is counted in milliseconds since the program started.  An
    operation takes no time; the clock moves only when no goroutine can
    move, and then to the next instant at which a sleeper or a ticker is
    due.  Goroutines that can move do so in any order.  A ticker puts a
    tick in a channel of capacity one each time it is due; a [select]
    takes any of its cases that is ready and waits when none is;
    [time.Sleep] ends exactly on time. *)

Fixpoint replace_nth {A : Type} (n : nat) (x : A) (l : list A) : list A :=
  match l, n with
  | [], _ => []
  | _ :: l', O => x :: l'
  | y :: l', S n' => y :: replace_nth n' x l'
  end.

Fixpoint change_nth {A : Type} (n : nat) (f : A -> A) (l : list A) : list A :=
  match l, n with
  | [], _ => []
  | y :: l', O => f y :: l'
  | y :: l', S n' => y :: change_nth n' f l'
  end.

Fixpoint minimum (l : list Z) : option Z :=
  match l with
  | [] => None
  | x :: l' => match minimum l' with None => Some x | Some m => Some (Z.min x m) end
  end.

(** A [time.Ticker]: its period, when it fires next, whether its channel
    (of capacity one) holds a tick, and whether it was stopped. *)
Record ticker : Type := mkTicker {
  period : Z; next_tick : Z; pending : bool; stopped : bool }.

Definition tick_pending (ks : list ticker) (t : Ticker) : bool :=
  match nth_error ks t with Some k => pending k | None => false end.

Definition take_tick (k : ticker) : ticker :=
  mkTicker (period k) (next_tick k) false (stopped k).

Definition stop (k : ticker) : ticker :=
  mkTicker (period k) (next_tick k) (pending k) true.

(** The ticker fires when it is due: a tick is put in the channel (and
    lost when one is there already) and the next one is [period] later. *)
Definition fire (t' : Z) (k : ticker) : ticker :=
  if stopped k then k
  else if next_tick k <=? t' then mkTicker (period k) (next_tick k + period k) true false
  else k.

(** What an operation does to the shared state: its answer, the store and
    the tickers afterwards, until when the goroutine sleeps, and the
    goroutines it starts. *)
Record outcome (X : Type) : Type := mkOutcome {
  o_answer : X;
  o_ctxs : store;
  o_tickers : list ticker;
  o_wake : option Z;
  o_spawn : list (func * Context) }.

(** The outcomes of an operation at time [t] with store [cs] and tickers
    [ks].  A [select] has one outcome for each case that is ready, and
    none when it has to wait. *)
Definition respond (t : Z) (cs : store) (ks : list ticker) {X : Type} (e : goE X)
  : list (outcome X) :=
  match e in goE X return list (outcome X) with
  | Print _ => [mkOutcome tt cs ks None []]
  | Sleep ms => [mkOutcome tt cs ks (Some (t + ms)) []]
  | NewTicker ms =>
      [mkOutcome (List.length ks) cs (ks ++ [mkTicker ms (t + ms) false false]) None []]
  | TickerStop tk => [mkOutcome tt cs (change_nth tk stop ks) None []]
  | Select tk ctx =>
      (if tick_pending ks tk
       then [mkOutcome TickerCase cs (change_nth tk take_tick ks) None []] else [])
      ++ (if Done cs ctx then [mkOutcome DoneCase cs ks None []] else [])
  | CtxErr ctx => [mkOutcome (Err cs ctx) cs ks None []]
  | CtxCause ctx => [mkOutcome (Cause cs ctx) cs ks None []]
  | NewCancelCause =>
      let r := WithCancelCause cs in [mkOutcome (snd r) (fst r) ks None []]
  | NewCancel =>
      let r := WithCancel cs in [mkOutcome (snd r) (fst r) ks None []]
  | CancelCause f c => [mkOutcome tt (callCancelCause f c cs) ks None []]
  | Cancel f => [mkOutcome tt (callCancel f cs) ks None []]
  | Go f ctx => [mkOutcome tt cs ks None [(f, ctx)]]
  end.

(** The goroutine that runs [main], or one started by a [go] statement. *)
Variant who : Type := Main | Started (f : func).

Section System.

(** The semantics is written once for any representation [T] of what a
    goroutine has left to run. *)
Variable T : Type.

Variant tview : Type :=
| VRet
| VTau (t : T)
| VVis {X : Type} (e : goE X) (k : X -> T).

Variable view : T -> tview.
Variable start : func -> Context -> T.

(** A goroutine: what it has left to run, until when it sleeps, the
    operations it has performed, with the time of each, and whether it has
    returned. *)
Record thread : Type := mkThread {
  name : who; code : T; wake : option Z; ops : list (Z * label); finished : bool }.

Record sys : Type := mkSys {
  now : Z; ctxs : store; tickers : list ticker; threads : list thread; exited : bool }.

Definition asleep (s : sys) (th : thread) : bool :=
  match wake th with Some w => now s <? w | None => false end.

(** Goroutine [i] performs [e] with outcome [o]. *)
Definition commit (s : sys) (i : nat) (th : thread) {X : Type} (e : goE X) (k : X -> T)
    (o : outcome X) : sys :=
  mkSys (now s) (o_ctxs o) (o_tickers o)
    (replace_nth i
       (mkThread (name th) (k (o_answer o)) (o_wake o)
          (ops th ++ [(now s, label_of e (o_answer o))]) false)
       (threads s)
     ++ map (fun fc => mkThread (Started (fst fc)) (start (fst fc) (snd fc)) None [] false)
          (o_spawn o))
    (exited s).

(** The steps goroutine [i] can take.  When [main] returns the program
    exits; another goroutine that returns is finished. *)
Definition thread_steps (s : sys) (i : nat) (th : thread) : list sys :=
  if finished th || asleep s th then [] else
  match view (code th) with
  | VRet =>
      match name th with
      | Main => [mkSys (now s) (ctxs s) (tickers s) (threads s) true]
      | Started _ =>
          [mkSys (now s) (ctxs s) (tickers s)
             (replace_nth i (mkThread (name th) (code th) None (ops th) true) (threads s))
             (exited s)]
      end
  | VTau t' =>
      [mkSys (now s) (ctxs s) (tickers s)
         (replace_nth i (mkThread (name th) t' None (ops th) false) (threads s))
         (exited s)]
  | VVis e k => map (commit s i th e k) (respond (now s) (ctxs s) (tickers s) e)
  end.

Definition moves (s : sys) : list sys :=
  flat_map (fun p => thread_steps s (fst p) (snd p))
    (combine (seq 0 (List.length (threads s))) (threads s)).

(** The instants after [now] at which a sleeper wakes or a ticker fires. *)
Definition deadlines (s : sys) : list Z :=
  filter (fun d => now s <? d)
    (flat_map (fun th => if finished th then [] else
                         match wake th with Some w => [w] | None => [] end) (threads s)
     ++ flat_map (fun k => if stopped k then [] else [next_tick k]) (tickers s)).

Definition advance (s : sys) : list sys :=
  match minimum (deadlines s) with
  | None => []
  | Some t' => [mkSys t' (ctxs s) (map (fire t') (tickers s)) (threads s) (exited s)]
  end.

(** The successors of a state: none once the program has exited; the
    moves of the goroutines; the clock when none can move. *)
Definition succs (s : sys) : list sys :=
  if exited s then [] else
  match moves s with
  | [] => advance s
  | ms => ms
  end.

Definition step (s s' : sys) : Prop := In s' (succs s).

Inductive reach (s : sys) : sys -> Prop :=
| reach_refl : reach s s
| reach_step s1 s2 : reach s s1 -> step s1 s2 -> reach s s2.

(** [path n s s']: an execution of [n] steps from [s] to [s']. *)
Inductive path : nat -> sys -> sys -> Prop :=
| path_O s : path O s s
| path_S n s s1 s2 : step s s1 -> path n s1 s2 -> path (S n) s s2.

(** The program at its start: [main] alone, at time 0, nothing in the
    store. *)
Definition boot (main : T) : sys :=
  mkSys 0 [] [] [mkThread Main main None [] false] false.

(** The operations a goroutine has performed, and their times. *)
Definition ops_of (w : who) (s : sys) : list (Z * label) :=
  flat_map (fun th => match w, name th with
                      | Main, Main => ops th
                      | Started f, Started g =>
                          if func_eqb f g then ops th else []
                      | _, _ => []
                      end) (threads s).

(** Whether the goroutines running [w] have returned. *)
Definition finished_of (w : who) (s : sys) : list bool :=
  flat_map (fun th => match w, name th with
                      | Main, Main => [finished th]
                      | Started f, Started g =>
                          if func_eqb f g then [finished th] else []
                      | _, _ => []
                      end) (threads s).

(** Always taking the first successor, [n] times. *)
Fixpoint run_first (n : nat) (s : sys) : sys :=
  match n with
  | O => s
  | S n' => match succs s with [] => s | s' :: _ => run_first n' s' end
  end.

End System.

Arguments VRet {T}.
Arguments boot {T} main.
Arguments mkSys {T} now ctxs tickers threads exited.
Arguments mkThread {T} name code wake ops finished.

(** ** Goroutines as interaction trees *)

Definition itree_view (t : itree goE unit) : tview (itree goE unit) :=
  match observe t with
  | RetF _ => VRet
  | TauF u => VTau u
  | VisF e k => VVis e k
  end.

(** The demonstration with a cancellation cause, as a whole program. *)
Definition demo : sys (itree goE unit) := boot CauseDemo.main.

Definition demo_step : sys (itree goE unit) -> sys (itree goE unit) -> Prop :=
  step itree_view body_of.

Definition demo_reach : sys (itree goE unit) -> Prop :=
  reach itree_view body_of demo.

Definition demo_path (n : nat) : sys (itree goE unit) -> Prop :=
  path itree_view body_of n demo.

(** The lines a goroutine has printed, and their times. *)
Definition lines_of {T : Type} (w : who) (s : sys T) : list (Z * string) :=
  flat_map (fun p => match snd p with LPrint str => [(fst p, str)] | _ => [] end)
    (ops_of w s).

(** The operations of a goroutine that are not prints. *)
Definition protocol_of {T : Type} (w : who) (s : sys T) : list (Z * label) :=
  filter (fun p => match snd p with LPrint _ => false | _ => true end) (ops_of w s).

(** The context and the cancel function [main] gets from
    [WithCancelCause] in an empty store. *)
Definition ctx0 : Context := cancelCtxAt 0.
Definition cancel0 : CancelCauseFunc := mkCancelCauseFunc 0.

(** ** Goroutines as positions in their code

    A goroutine is also determined by the function it runs and the answers
    it has received so far; states in this form can be compared, which the
    exhaustive exploration of the program needs. *)

Variant answer : Type :=
| ATau
| AUnit
| ATicker (t : Ticker)
| ASelect (c : select_case)
| AError (e : option error)
| ACancelCause (r : Context * CancelCauseFunc)
| ACancel (r : Context * CancelFunc).

Definition ans {X : Type} (e : goE X) : X -> answer :=
  match e in goE X return X -> answer with
  | Print _ | Sleep _ | TickerStop _ | CancelCause _ _ | Cancel _ | Go _ _ => fun _ => AUnit
  | NewTicker _ => ATicker
  | Select _ _ => ASelect
  | CtxErr _ | CtxCause _ => AError
  | NewCancelCause => ACancelCause
  | NewCancel => ACancel
  end.

Definition decode {X : Type} (e : goE X) (a : answer) : option X :=
  match e in goE X return option X with
  | Print _ | Sleep _ | TickerStop _ | CancelCause _ _ | Cancel _ | Go _ _ =>
      match a with AUnit => Some tt | _ => None end
  | NewTicker _ => match a with ATicker t => Some t | _ => None end
  | Select _ _ => match a with ASelect c => Some c | _ => None end
  | CtxErr _ | CtxCause _ => match a with AError x => Some x | _ => None end
  | NewCancelCause => match a with ACancelCause r => Some r | _ => None end
  | NewCancel => match a with ACancel r => Some r | _ => None end
  end.

(** What is left of [t] after one more answer. *)
Definition feed (t : itree goE unit) (a : answer) : itree goE unit :=
  match observe t with
  | RetF _ => t
  | TauF u => u
  | VisF e k => match decode e a with Some x => k x | None => t end
  end.

Definition replay (t : itree goE unit) (h : list answer) : itree goE unit :=
  fold_left feed h t.

Variant prog : Type := PMain | PGo (f : func) (ctx : Context).

Definition code_of (p : prog) : itree goE unit :=
  match p with
  | PMain => CauseDemo.main
  | PGo f ctx => body_of f ctx
  end.

Record pos : Type := mkPos { p_prog : prog; p_hist : list answer }.

(** The interaction tree a position stands for. *)
Definition at_pos (p : pos) : itree goE unit := replay (code_of (p_prog p)) (p_hist p).

Definition pos_view (p : pos) : tview pos :=
  match observe (at_pos p) with
  | RetF _ => VRet
  | TauF _ => VTau (mkPos (p_prog p) (p_hist p ++ [ATau]))
  | VisF e k => VVis e (fun x => mkPos (p_prog p) (p_hist p ++ [ans e x]))
  end.

Definition pos_start (f : func) (ctx : Context) : pos := mkPos (PGo f ctx) [].

Definition pdemo : sys pos := boot (mkPos PMain []).

(** A state with the code of its goroutines mapped by [f]. *)
Definition map_thread {T U : Type} (f : T -> U) (th : thread T) : thread U :=
  mkThread (name th) (f (code th)) (wake th) (ops th) (finished th).

Definition map_sys {T U : Type} (f : T -> U) (s : sys T) : sys U :=
  mkSys (now s) (ctxs s) (tickers s) (map (map_thread f) (threads s)) (exited s).

(** ** Exhaustive exploration *)

Definition error_eq_dec (a b : error) : {a = b} + {a <> b}.
Proof. decide equality. apply string_dec. Defined.

Definition opt_error_eq_dec (a b : option error) : {a = b} + {a <> b}.
Proof. decide equality. apply error_eq_dec. Defined.

Definition Context_eq_dec (a b : Context) : {a = b} + {a <> b}.
Proof. decide equality. apply Nat.eq_dec. Defined.

Definition func_eq_dec (a b : func) : {a = b} + {a <> b}.
Proof. decide equality. Defined.

Definition CancelCauseFunc_eq_dec (a b : CancelCauseFunc) : {a = b} + {a <> b}.
Proof. decide equality. apply Nat.eq_dec. Defined.

Definition CancelFunc_eq_dec (a b : CancelFunc) : {a = b} + {a <> b}.
Proof. decide equality. apply Nat.eq_dec. Defined.

Definition answer_eq_dec (a b : answer) : {a = b} + {a <> b}.
Proof.
  decide equality; try apply Nat.eq_dec; try apply opt_error_eq_dec.
  - decide equality.
  - decide equality; [apply CancelCauseFunc_eq_dec | apply Context_eq_dec].
  - decide equality; [apply CancelFunc_eq_dec | apply Context_eq_dec].
Defined.

Definition label_eq_dec (a b : label) : {a = b} + {a <> b}.
Proof.
  decide equality;
    try apply string_dec; try apply Z.eq_dec; try apply Nat.eq_dec;
    try apply opt_error_eq_dec; try apply Context_eq_dec; try apply func_eq_dec;
    try apply CancelCauseFunc_eq_dec; try apply CancelFunc_eq_dec.
  decide equality.
Defined.

Definition pos_eq_dec (a b : pos) : {a = b} + {a <> b}.
Proof.
  decide equality.
  - apply list_eq_dec, answer_eq_dec.
  - decide equality; [apply Context_eq_dec | apply func_eq_dec].
Defined.

Definition cancelCtx_eq_dec (a b : cancelCtx) : {a = b} + {a <> b}.
Proof. decide equality; try apply opt_error_eq_dec. apply bool_dec. Defined.

Definition ticker_eq_dec (a b : ticker) : {a = b} + {a <> b}.
Proof. decide equality; try apply bool_dec; apply Z.eq_dec. Defined.

Definition timed_label_eq_dec (a b : Z * label) : {a = b} + {a <> b}.
Proof. decide equality; [apply label_eq_dec | apply Z.eq_dec]. Defined.

Definition timed_line_eq_dec (a b : Z * string) : {a = b} + {a <> b}.
Proof. decide equality; [apply string_dec | apply Z.eq_dec]. Defined.

Section Compare.

Variable T : Type.
Variable T_eq_dec : forall a b : T, {a = b} + {a <> b}.

Definition thread_eq_dec (a b : thread T) : {a = b} + {a <> b}.
Proof.
  decide equality; try apply bool_dec.
  - apply list_eq_dec, timed_label_eq_dec.
  - decide equality. apply Z.eq_dec.
  - decide equality. apply func_eq_dec.
Defined.

Definition sys_eq_dec (a b : sys T) : {a = b} + {a <> b}.
Proof.
  decide equality; try apply bool_dec.
  - apply list_eq_dec, thread_eq_dec.
  - apply list_eq_dec, ticker_eq_dec.
  - apply list_eq_dec, cancelCtx_eq_dec.
  - apply Z.eq_dec.
Defined.

End Compare.

Definition psuccs : sys pos -> list (sys pos) := succs pos_view pos_start.

(** [check Q n fr]: [Q] holds of every state that an execution from a
    state of [fr] goes through, and no such execution has [n] steps. *)
Fixpoint check (Q : sys pos -> bool) (n : nat) (fr : list (sys pos)) : bool :=
  match n with
  | O => match fr with [] => true | _ => false end
  | S n' =>
      forallb Q fr && check Q n' (nodup (sys_eq_dec pos_eq_dec) (flat_map psuccs fr))
  end.

Definition is_nil {A : Type} (l : list A) : bool :=
  match l with [] => true | _ => false end.

Definition prefixb {A : Type} (eq_dec : forall a b : A, {a = b} + {a <> b})
  : list A -> list A -> bool :=
  fix go (l full : list A) : bool :=
    match l, full with
    | [], _ => true
    | x :: l', y :: full' => if eq_dec x y then go l' full' else false
    | _ :: _, [] => false
    end.

Definition list_eqb {A : Type} (eq_dec : forall a b : A, {a = b} + {a <> b})
    (l1 l2 : list A) : bool :=
  if list_eq_dec eq_dec l1 l2 then true else false.

(** ** What the demonstration is expected to do *)

(** The lines [hogwarts] prints in the demonstration: the entry line, a
    work line every 200ms up to 1400ms, and at 1500ms the three lines of
    the cancellation report. *)
Definition hog_lines : list (Z * string) :=
  (0, CauseDemo.hog_enter)
  :: map (fun k => (200 * Z.of_nat k, CauseDemo.hog_work)) (seq 1 7)
  ++ [(1500, CauseDemo.hog_received);
      (1500, CauseDemo.hog_err_line (Some Canceled));
      (1500, CauseDemo.hog_cause_line (Some CauseDemo.causeError))].

(** The lines [leakyCauldron] prints up to its [n]-th turn: one every
    500ms. *)
Definition leaky_lines (n : nat) : list (Z * string) :=
  (0, CauseDemo.leaky_enter)
  :: map (fun k => (500 * Z.of_nat k, CauseDemo.leaky_work)) (seq 1 n).

(** The operations of [main] that are not prints, with their times. *)
Definition main_protocol : list (Z * label) :=
  [(0, LNewCancelCause ctx0 cancel0);
   (0, LGo fn_leakyCauldron Background);
   (0, LGo fn_hogwarts ctx0);
   (0, LSleep 1500);
   (1500, LCancelCause cancel0 (Some CauseDemo.causeError));
   (1500, LSleep 2000);
   (3500, LCancelCause cancel0 None)].

(** The store once [main] has performed [n] operations of its protocol:
    empty before the context is made, an uncanceled context up to the
    fourth, and from the fifth on the context canceled with
    [causeError]. *)
Definition signal_after (n : nat) : store :=
  match n with
  | O => []
  | 1%nat | 2%nat | 3%nat | 4%nat => [newCancelCtx]
  | _ => [mkCancelCtx true (Some Canceled) (Some CauseDemo.causeError)]
  end.

(** The operations of [main] that are not prints, when [WithCancelCause]
    has returned [ctx] and [f]. *)
Definition main_calls (ctx : Context) (f : CancelCauseFunc) : list label :=
  [LNewCancelCause ctx f;
   LGo fn_leakyCauldron Background;
   LGo fn_hogwarts ctx;
   LSleep 1500;
   LCancelCause f (Some CauseDemo.causeError);
   LSleep 2000;
   LCancelCause f None].

(** The operations that are not prints. *)
Definition calls_of (ls : list label) : list label :=
  filter (fun l => match l with LPrint _ => false | _ => true end) ls.

(** The number of calls of a cancel function among the operations. *)
Definition cancel_count (ls : list label) : nat :=
  List.length (filter (fun l => match l with
                                | LCancelCause _ _ | LCancel _ => true
                                | _ => false
                                end) ls).

(** The number of work lines [leakyCauldron] has printed. *)
Definition leaky_work_count {T : Type} (s : sys T) : Z :=
  Z.of_nat (List.length
    (filter (fun p => String.eqb (snd p) CauseDemo.leaky_work)
       (lines_of (Started fn_leakyCauldron) s))).

(** The number of times the line [x] was printed. *)
Definition count_line (x : string) (ls : list (Z * string)) : nat :=
  List.length (filter (fun p => String.eqb (snd p) x) ls).

(** What was printed after the first line [x]. *)
Fixpoint after_line (x : string) (ls : list (Z * string)) : list (Z * string) :=
  match ls with
  | [] => []
  | p :: ls' => if String.eqb (snd p) x then ls' else after_line x ls'
  end.

(** What the exploration checks of every state [p]. *)

(** The protocol of [main] so far is the beginning of [main_protocol],
    and all of it at the exit. *)
Definition ok_controller (p : sys pos) : bool :=
  prefixb timed_label_eq_dec (protocol_of Main p) main_protocol
  && (negb (exited p) || list_eqb timed_label_eq_dec (protocol_of Main p) main_protocol).

Definition ok_store (p : sys pos) : bool :=
  list_eqb cancelCtx_eq_dec (ctxs p) (signal_after (List.length (protocol_of Main p))).

(** A step changes the store only when [main] makes the context or
    cancels it with [causeError]. *)
Definition ok_store_steps (p : sys pos) : bool :=
  forallb (fun p' =>
     list_eqb cancelCtx_eq_dec (ctxs p') (ctxs p)
     || list_eqb timed_label_eq_dec (protocol_of Main p') (firstn 1 main_protocol)
     || list_eqb timed_label_eq_dec (protocol_of Main p') (firstn 5 main_protocol))
    (psuccs p).

Definition ok_hogwarts (p : sys pos) : bool :=
  prefixb timed_line_eq_dec (lines_of (Started fn_hogwarts) p) hog_lines.

(** At the exit: the time, what the workers have printed, and that
    [hogwarts] has returned. *)
Definition ok_exit (p : sys pos) : bool :=
  negb (exited p)
  || ((now p =? 3500)
      && list_eqb timed_line_eq_dec (lines_of (Started fn_hogwarts) p) hog_lines
      && (list_eqb timed_line_eq_dec (lines_of (Started fn_leakyCauldron) p) (leaky_lines 6)
          || list_eqb timed_line_eq_dec (lines_of (Started fn_leakyCauldron) p)
               (leaky_lines 7))
      && list_eqb bool_dec (finished_of (Started fn_hogwarts) p) [true]).

(** The work lines of [leakyCauldron] follow the clock, and it has not
    returned. *)
Definition ok_leaky (p : sys pos) : bool :=
  (now p / 500 - 1 <=? leaky_work_count p)
  && (leaky_work_count p <=? now p / 500)
  && negb (existsb (fun b => b) (finished_of (Started fn_leakyCauldron) p)).

(** The program stops only by exiting. *)
Definition ok_progress (p : sys pos) : bool :=
  exited p || negb (is_nil (psuccs p)).

Definition demo_ok (p : sys pos) : bool :=
  ok_controller p && ok_store p && ok_store_steps p && ok_hogwarts p
  && ok_exit p && ok_leaky p && ok_progress p.

(** ** The plain demonstration as a whole program *)

(** Positions in the code of a program whose [main] is [the_main]; the
    goroutines it starts run [body_of]. *)
Section AnyMain.

Variable the_main : itree goE unit.

Definition code_in (p : prog) : itree goE unit :=
  match p with
  | PMain => the_main
  | PGo f ctx => body_of f ctx
  end.

Definition at_pos_in (p : pos) : itree goE unit :=
  replay (code_in (p_prog p)) (p_hist p).

Definition pos_view_in (p : pos) : tview pos :=
  match observe (at_pos_in p) with
  | RetF _ => VRet
  | TauF _ => VTau (mkPos (p_prog p) (p_hist p ++ [ATau]))
  | VisF e k => VVis e (fun x => mkPos (p_prog p) (p_hist p ++ [ans e x]))
  end.

Definition succs_in : sys pos -> list (sys pos) := succs pos_view_in pos_start.

(** [check_in Q n fr]: as [check], for the program of [the_main]. *)
Fixpoint check_in (Q : sys pos -> bool) (n : nat) (fr : list (sys pos)) : bool :=
  match n with
  | O => match fr with [] => true | _ => false end
  | S n' =>
      forallb Q fr && check_in Q n' (nodup (sys_eq_dec pos_eq_dec) (flat_map succs_in fr))
  end.

End AnyMain.

Definition plain : sys (itree goE unit) := boot PlainDemo.main.

Definition plain_step : sys (itree goE unit) -> sys (itree goE unit) -> Prop :=
  step itree_view body_of.

Definition plain_reach : sys (itree goE unit) -> Prop :=
  reach itree_view body_of plain.

Definition plain_path (n : nat) : sys (itree goE unit) -> Prop :=
  path itree_view body_of n plain.

(** The cancel function [main] gets from [WithCancel] in an empty store. *)
Definition cancel0' : CancelFunc := mkCancelFunc 0.

(** The operations of the plain [main] that are not prints, when
    [WithCancel] has returned [ctx] and [f]. *)
Definition plain_calls (ctx : Context) (f : CancelFunc) : list label :=
  [LNewCancel ctx f;
   LGo fn_leakyWorker Background;
   LGo fn_safeWorker ctx;
   LSleep 1500;
   LCancel f;
   LSleep 2000;
   LCancel f].

(** What the plain [main] does when every operation is answered at once
    and [WithCancel] returns the first context of an empty store. *)
Definition plain_main_run : list label :=
  exec (env_const TickerCase None) 20 0 PlainDemo.main.

(** The same with their times in the plain demonstration. *)
Definition plain_protocol : list (Z * label) :=
  [(0, LNewCancel ctx0 cancel0');
   (0, LGo fn_leakyWorker Background);
   (0, LGo fn_safeWorker ctx0);
   (0, LSleep 1500);
   (1500, LCancel cancel0');
   (1500, LSleep 2000);
   (3500, LCancel cancel0')].

(** The store once the plain [main] has performed [n] operations of its
    protocol. *)
Definition plain_signal_after (n : nat) : store :=
  match n with
  | O => []
  | 1%nat | 2%nat | 3%nat | 4%nat => [newCancelCtx]
  | _ => [mkCancelCtx true (Some Canceled) (Some Canceled)]
  end.

(** The lines [safeWorker] prints in the plain demonstration. *)
Definition safe_lines : list (Z * string) :=
  (0, PlainDemo.safe_enter)
  :: map (fun k => (200 * Z.of_nat k, PlainDemo.safe_work)) (seq 1 7)
  ++ [(1500, PlainDemo.safe_received);
      (1500, PlainDemo.safe_reason_line (Some Canceled))].

(** The lines [leakyWorker] prints up to its [n]-th turn. *)
Definition plain_leaky_lines (n : nat) : list (Z * string) :=
  (0, PlainDemo.leaky_enter)
  :: map (fun k => (500 * Z.of_nat k, PlainDemo.leaky_work)) (seq 1 n).

(** The last two lines of each [main]. *)
Definition cause_graceful_line : string :=
  ("Hogwarts has shutdown gracefully, reporting the 'voldemort is here' cause." ++ nl)%string.
Definition cause_leak_line : string :=
  ("Leaky Cauldron is still running (goroutine leak)." ++ nl)%string.
Definition plain_graceful_line : string :=
  ("Safe Worker has exited gracefully." ++ nl)%string.
Definition plain_leak_line : string :=
  ("Leaky Worker is still running in the background (goroutine leak)." ++ nl)%string.

(** The goroutine [w] has printed [line]. *)
Definition has_printed {T : Type} (w : who) (line : string) (s : sys T) : bool :=
  existsb (fun p => String.eqb (snd p) line) (lines_of w s).

(** Every ticker is stopped and holds no tick to come. *)
Definition tickers_stopped {T : Type} (s : sys T) : bool :=
  forallb (fun k => stopped k) (tickers s).

(** What the exploration of the plain demonstration checks. *)
Definition plain_ok_controller (p : sys pos) : bool :=
  prefixb timed_label_eq_dec (protocol_of Main p) plain_protocol
  && (negb (exited p) || list_eqb timed_label_eq_dec (protocol_of Main p) plain_protocol)
  && list_eqb cancelCtx_eq_dec (ctxs p)
       (plain_signal_after (List.length (protocol_of Main p))).

Definition plain_ok_workers (p : sys pos) : bool :=
  prefixb timed_line_eq_dec (lines_of (Started fn_safeWorker) p) safe_lines
  && negb (existsb (fun b => b) (finished_of (Started fn_leakyWorker) p))
  && (negb (exited p)
      || ((now p =? 3500)
          && list_eqb timed_line_eq_dec (lines_of (Started fn_safeWorker) p) safe_lines
          && (list_eqb timed_line_eq_dec (lines_of (Started fn_leakyWorker) p)
                (plain_leaky_lines 6)
              || list_eqb timed_line_eq_dec (lines_of (Started fn_leakyWorker) p)
                   (plain_leaky_lines 7))
          && list_eqb bool_dec (finished_of (Started fn_safeWorker) p) [true])).

Definition plain_ok_narration (p : sys pos) : bool :=
  (negb (has_printed Main plain_graceful_line p)
   || (list_eqb bool_dec (finished_of (Started fn_safeWorker) p) [true]
       && tickers_stopped p && negb (is_nil (tickers p))))
  && (negb (has_printed Main plain_leak_line p)
      || list_eqb bool_dec (finished_of (Started fn_leakyWorker) p) [false])
  && (negb (exited p)
      || (has_printed Main plain_graceful_line p && has_printed Main plain_leak_line p)).

Definition plain_ok_progress (p : sys pos) : bool :=
  exited p || negb (is_nil (succs_in PlainDemo.main p)).

(** The number of work lines [leakyWorker] has printed. *)
Definition plain_leaky_work_count {T : Type} (s : sys T) : Z :=
  Z.of_nat (count_line PlainDemo.leaky_work (lines_of (Started fn_leakyWorker) s)).

(** The number of work lines [safeWorker] has printed. *)
Definition safe_work_count {T : Type} (s : sys T) : Z :=
  Z.of_nat (count_line PlainDemo.safe_work (lines_of (Started fn_safeWorker) s)).

(** The work lines of [leakyWorker] follow the clock; those of
    [safeWorker] do so up to the cancellation and are seven from then on. *)
Definition plain_ok_counts (p : sys pos) : bool :=
  (now p / 500 - 1 <=? plain_leaky_work_count p)
  && (plain_leaky_work_count p <=? now p / 500)
  && (Z.min (now p / 200) 7 - 1 <=? safe_work_count p)
  && (safe_work_count p <=? Z.min (now p / 200) 7)
  && ((now p <? 1500) || (safe_work_count p =? 7)).

Definition plain_ok (p : sys pos) : bool :=
  plain_ok_controller p && plain_ok_workers p && plain_ok_narration p
  && plain_ok_progress p && plain_ok_counts p.

(** What a second exploration of the demonstration with a cause checks:
    what holds when [main] prints its last two lines. *)
Definition cause_ok_narration (p : sys pos) : bool :=
  (negb (has_printed Main cause_graceful_line p)
   || (list_eqb bool_dec (finished_of (Started fn_hogwarts) p) [true]
       && tickers_stopped p && negb (is_nil (tickers p))
       && has_printed (Started fn_hogwarts)
            (CauseDemo.hog_cause_line (Some CauseDemo.causeError)) p))
  && (negb (has_printed Main cause_leak_line p)
      || list_eqb bool_dec (finished_of (Started fn_leakyCauldron) p) [false])
  && (negb (exited p)
      || (has_printed Main cause_graceful_line p && has_printed Main cause_leak_line p)).

(** ** The demonstration with the cause as a parameter *)

(** [CauseDemo.main] with the error it cancels with as a parameter, and
    nothing else changed: [CauseDemo.main] is [main_with CauseDemo.causeError]. *)
Definition main_with (cause : error) : itree goE unit :=
  ITree.trigger (Print (nl ++ nl ++ "Starting Context Demonstration with Cancel Cause..." ++ nl ++ nl)%string) ;;
  ITree.trigger (Println "---------------------------------------------------") ;;
  '(ctx, cancel) <- ITree.trigger NewCancelCause ;;
  ITree.trigger (Go fn_leakyCauldron Background) ;;
  ITree.trigger (Go fn_hogwarts ctx) ;;
  ITree.trigger (Println (nl ++ "Allowing workers to run for 1.5 seconds...")%string) ;;
  ITree.trigger (Sleep 1500) ;;
  ITree.trigger (Print (nl ++ ">>> Calling cancel(cause) with cause: '" ++ fmt_v (Some cause) ++ "' <<<" ++ nl)%string) ;;
  ITree.trigger (CancelCause cancel (Some cause)) ;;
  ITree.trigger (Print ("Waiting 2 seconds for workers to respond to cancellation..." ++ nl ++ nl ++ nl)%string) ;;
  ITree.trigger (Sleep 2000) ;;
  ITree.trigger (Print (nl ++ nl ++ "---------------------------------------------------" ++ nl)%string) ;;
  ITree.trigger (Print ("Demonstration complete. " ++ nl ++ nl)%string) ;;
  ITree.trigger (Println "Hogwarts has shutdown gracefully, reporting the 'voldemort is here' cause.") ;;
  ITree.trigger (Println "Leaky Cauldron is still running (goroutine leak).") ;;
  ITree.trigger (CancelCause cancel None).

(** The program whose [main] cancels with [cause]. *)
Definition scenario (cause : error) : sys (itree goE unit) := boot (main_with cause).

Definition scenario_reach (cause : error) : sys (itree goE unit) -> Prop :=
  reach itree_view body_of (scenario cause).

Definition scenario_path (cause : error) (n : nat) : sys (itree goE unit) -> Prop :=
  path itree_view body_of n (scenario cause).

(** The cause [errors.New("shutdown")]. *)
Definition shutdown : error := errorString "shutdown".

(** The causes the demonstration is explored with: [shutdown], and the
    one [CauseDemo.main] passes. *)
Definition scenario_causes : list error := [shutdown; CauseDemo.causeError].

(** The operations of [main_with cause] that are not prints, with their
    times. *)
Definition protocol_with (cause : error) : list (Z * label) :=
  [(0, LNewCancelCause ctx0 cancel0);
   (0, LGo fn_leakyCauldron Background);
   (0, LGo fn_hogwarts ctx0);
   (0, LSleep 1500);
   (1500, LCancelCause cancel0 (Some cause));
   (1500, LSleep 2000);
   (3500, LCancelCause cancel0 None)].

(** The report of [hogwarts] after its received line, when the context
    was canceled with [cause]. *)
Definition hog_report (cause : error) : list (Z * string) :=
  [(1500, CauseDemo.hog_err_line (Some Canceled));
   (1500, CauseDemo.hog_cause_line (Some cause))].

(** The lines [hogwarts] prints when [main] cancels with [cause]: the
    entry line, a work line every 200ms up to 1400ms, and at 1500ms the
    received line and the report. *)
Definition hog_lines_with (cause : error) : list (Z * string) :=
  (0, CauseDemo.hog_enter)
  :: map (fun k => (200 * Z.of_nat k, CauseDemo.hog_work)) (seq 1 7)
  ++ (1500, CauseDemo.hog_received) :: hog_report cause.

(** What the exploration of [main_with cause] checks of every state. *)
Definition scenario_ok_controller (cause : error) (p : sys pos) : bool :=
  prefixb timed_label_eq_dec (protocol_of Main p) (protocol_with cause)
  && (negb (exited p)
      || list_eqb timed_label_eq_dec (protocol_of Main p) (protocol_with cause)).

Definition scenario_ok_hogwarts (cause : error) (p : sys pos) : bool :=
  prefixb timed_line_eq_dec (lines_of (Started fn_hogwarts) p) (hog_lines_with cause)
  && (negb (exited p)
      || ((now p =? 3500)
          && list_eqb timed_line_eq_dec (lines_of (Started fn_hogwarts) p)
               (hog_lines_with cause)
          && list_eqb bool_dec (finished_of (Started fn_hogwarts) p) [true])).

Definition scenario_ok_leaky (p : sys pos) : bool :=
  ok_leaky p
  && prefixb timed_line_eq_dec (lines_of (Started fn_leakyCauldron) p) (leaky_lines 7)
  && (negb (exited p)
      || list_eqb timed_line_eq_dec (lines_of (Started fn_leakyCauldron) p) (leaky_lines 6)
      || list_eqb timed_line_eq_dec (lines_of (Started fn_leakyCauldron) p) (leaky_lines 7)).

Definition scenario_ok_progress (cause : error) (p : sys pos) : bool :=
  exited p || negb (is_nil (succs_in (main_with cause) p)).

Definition scenario_ok (cause : error) (p : sys pos) : bool :=
  scenario_ok_controller cause p && scenario_ok_hogwarts cause p
  && scenario_ok_leaky p && scenario_ok_progress cause p.

(** ** What a cooperative worker may do *)

(** The operations of a cooperative worker that holds [ctx] and has made
    the ticker [t]: prints, making a ticker of 200ms, a [select] on [t] and
    [ctx], reading [ctx], stopping [t]. *)
Definition worker_may (t : Ticker) (ctx : Context) (l : label) : bool :=
  match l with
  | LPrint _ => true
  | LNewTicker ms t' => (ms =? 200) && Nat.eqb t' t
  | LTickerStop t' => Nat.eqb t' t
  | LSelect t' c _ => Nat.eqb t' t && (if Context_eq_dec c ctx then true else false)
  | LErr c _ | LCause c _ => if Context_eq_dec c ctx then true else false
  | _ => false
  end.

(** The operation is a [select] that took the ticker case. *)
Definition is_tick_select (l : label) : bool :=
  match l with
  | LSelect _ _ TickerCase => true
  | _ => false
  end.

Definition tick_count (ls : list label) : nat :=
  List.length (filter is_tick_select ls).

(** In a store built by the calls of the package: a context whose done
    channel is closed has [Canceled] as its [err], and one whose [err] is
    set has its done channel closed and its [cause] set. *)
Definition settled (s : store) : Prop :=
  forall p c, lookup s p = Some c ->
    (done c = true -> err c = Some Canceled) /\
    (err c <> None -> done c = true /\ cause c <> None).

(* ===================================================================== *)
(** * The cancellation signal *)
(* ===================================================================== *)

Unset Implicit Arguments.

Section StoreFacts.

Lemma lookup_update_same (s : store) (p : nat) (f : cancelCtx -> cancelCtx) :
  lookup (update s p f) p = option_map f (lookup s p).
Proof.
  revert p. induction s as [|c s IH]; intros [|p]; cbn; auto.
Qed.

Lemma lookup_update_other (s : store) (p q : nat) (f : cancelCtx -> cancelCtx) :
  p <> q -> lookup (update s p f) q = lookup s q.
Proof.
  revert p q. induction s as [|c s IH]; intros [|p] [|q] H; cbn; auto; congruence.
Qed.

Lemma lookup_fresh (s : store) (p : nat) :
  lookup (s ++ [newCancelCtx]) p =
  match lookup s p with
  | Some c => Some c
  | None => if Nat.eqb p (List.length s) then Some newCancelCtx else None
  end.
Proof.
  unfold lookup. revert p. induction s as [|c s IH]; intros [|p]; cbn; auto.
  now destruct p.
Qed.

Lemma lookup_in_range (s : store) (p : nat) :
  (p < List.length s)%nat -> exists c, lookup s p = Some c.
Proof.
  intros H. unfold lookup. destruct (nth_error s p) eqn:E; eauto.
  apply nth_error_None in E. lia.
Qed.

(** A canceled context stays as it is under [cancel]. *)
Lemma cancel_canceled (c : cancelCtx) (e : error) (cs : option error) :
  err c <> None -> cancel c e cs = c.
Proof. unfold cancel. destruct (err c); congruence. Qed.

Lemma cancel_sets_err (c : cancelCtx) (e : error) (cs : option error) :
  err (cancel c e cs) <> None.
Proof. unfold cancel. destruct (err c) eqn:E; cbn; congruence. Qed.

Lemma cancel_twice (c : cancelCtx) (e e' : error) (cs cs' : option error) :
  cancel (cancel c e cs) e' cs' = cancel c e cs.
Proof. apply cancel_canceled, cancel_sets_err. Qed.

Lemma update_twice (s : store) (p : nat) (f g : cancelCtx -> cancelCtx) :
  (forall c, g (f c) = f c) -> update (update s p f) p g = update s p f.
Proof.
  intros H. revert p. induction s as [|c s IH]; intros [|p]; cbn; auto.
  - now rewrite H.
  - now rewrite IH.
Qed.

Lemma apply_keeps_canceled (o : op) (s : store) (p : nat) (C : error) :
  canceled_with s p C -> canceled_with (apply o s) p C.
Proof.
  intros (c & Hl & Hd & He & Hc).
  assert (Hfresh : canceled_with (s ++ [newCancelCtx]) p C).
  { exists c. rewrite lookup_fresh, Hl. auto. }
  assert (Hupd : forall q e cs,
             canceled_with (update s q (fun c => cancel c e cs)) p C).
  { intros q e cs. destruct (Nat.eq_dec q p) as [->|Hq].
    - exists c. rewrite lookup_update_same, Hl. cbn.
      rewrite (cancel_canceled _ _ _ He). auto.
    - exists c. rewrite lookup_update_other by exact Hq. auto. }
  destruct o; cbn; auto; apply Hupd.
Qed.

Lemma apply_all_keeps_canceled (os : list op) (s : store) (p : nat) (C : error) :
  canceled_with s p C -> canceled_with (apply_all os s) p C.
Proof.
  revert s. induction os as [|o os IH]; intros s H; cbn; auto.
  apply IH, apply_keeps_canceled, H.
Qed.

Lemma first_cancel (s : store) (p : nat) (cs : option error) :
  (p < List.length s)%nat -> Err s (cancelCtxAt p) = None ->
  canceled_with (callCancelCause (mkCancelCauseFunc p) cs s) p
    (match cs with Some e => e | None => Canceled end).
Proof.
  intros Hp He. destruct (lookup_in_range s p Hp) as [c Hc].
  cbn in He. rewrite Hc in He.
  exists (cancel c Canceled cs). unfold callCancelCause. cbn.
  rewrite lookup_update_same, Hc. cbn. unfold cancel. rewrite He. cbn.
  repeat split; congruence.
Qed.

Lemma apply_keeps_open (o : op) (s : store) (ctx : Context) :
  Done s ctx = false -> targets o ctx = false -> Done (apply o s) ctx = false.
Proof.
  destruct ctx as [|p]; [reflexivity|]. cbn. intros Hd Ht.
  assert (Hfresh : match lookup (s ++ [newCancelCtx]) p with
                   | Some c => done c | None => false end = false).
  { rewrite lookup_fresh. destruct (lookup s p); auto.
    now destruct (Nat.eqb p (List.length s)). }
  destruct o; cbn in *; auto.
  - unfold callCancelCause. rewrite lookup_update_other; auto.
    intros E. rewrite E, Nat.eqb_refl in Ht. discriminate.
  - unfold callCancel. rewrite lookup_update_other; auto.
    intros E. rewrite E, Nat.eqb_refl in Ht. discriminate.
Qed.

Lemma apply_all_keeps_open (os : list op) (s : store) (ctx : Context) :
  Done s ctx = false -> (forall o, In o os -> targets o ctx = false) ->
  Done (apply_all os s) ctx = false.
Proof.
  revert s. induction os as [|o os IH]; intros s Hd Ht; cbn; auto.
  apply IH.
  - apply apply_keeps_open; auto. apply Ht. now left.
  - intros o' Ho'. apply Ht. now right.
Qed.

Lemma cancel_caused (c : cancelCtx) (e : error) (cs : option error) :
  (err c <> None -> cause c <> None) -> cause (cancel c e cs) <> None.
Proof.
  unfold cancel. intros H. destruct (err c) eqn:E; cbn.
  - apply H. congruence.
  - discriminate.
Qed.

Lemma apply_keeps_caused (o : op) (s : store) : caused s -> caused (apply o s).
Proof.
  intros H.
  assert (Hfresh : caused (s ++ [newCancelCtx])).
  { intros p c Hl He. rewrite lookup_fresh in Hl. destruct (lookup s p) eqn:E.
    - injection Hl as <-. eapply H; eauto.
    - destruct (Nat.eqb p (List.length s)); [|discriminate].
      injection Hl as <-. cbn in He. congruence. }
  assert (Hupd : forall q e cs, caused (update s q (fun c => cancel c e cs))).
  { intros q e cs p c Hl He. destruct (Nat.eq_dec q p) as [->|Hq].
    - rewrite lookup_update_same in Hl. destruct (lookup s p) as [c0|] eqn:E;
        [|discriminate]. cbn in Hl. injection Hl as <-.
      apply cancel_caused. apply (H p c0 E).
    - rewrite lookup_update_other in Hl by exact Hq. eapply H; eauto. }
  destruct o; cbn; auto; apply Hupd.
Qed.

Lemma apply_all_caused (os : list op) : caused (apply_all os []).
Proof.
  assert (G : forall s, caused s -> caused (apply_all os s)).
  { induction os as [|o os IH]; intros s H; cbn; auto.
    apply IH, apply_keeps_caused, H. }
  apply G. intros p c Hl. destruct p; discriminate.
Qed.

End StoreFacts.

(** C2.  Once a live, uncanceled context has been canceled with the cause
    [C], then whatever cancel contexts are made or canceled afterwards:
    its done channel is closed, so that a [select] on it always has the
    done case ready, and [context.Cause] returns [C]. *)
Theorem cancel_cause_then_done_and_cause
    (s : store) (p : nat) (C : error) (later : list op) :
  (p < List.length s)%nat ->
  Err s (cancelCtxAt p) = None ->
  let s' := apply_all later (callCancelCause (mkCancelCauseFunc p) (Some C) s) in
  Done s' (cancelCtxAt p) = true /\
  Cause s' (cancelCtxAt p) = Some C /\
  (forall (t : Z) (ks : list ticker) (tk : Ticker),
      In (mkOutcome DoneCase s' ks None []) (respond t s' ks (Select tk (cancelCtxAt p)))).
Proof.
  intros Hp He s'.
  destruct (apply_all_keeps_canceled later _ _ _ (first_cancel s p (Some C) Hp He))
    as (c & Hl & Hd & _ & Hc).
  fold s' in Hl.
  assert (HD : Done s' (cancelCtxAt p) = true) by (cbn; now rewrite Hl).
  repeat split.
  - exact HD.
  - cbn. now rewrite Hl.
  - intros t ks tk. unfold respond. rewrite HD. apply in_or_app. right. now left.
Qed.

Lemma cancel_cause_then_done_and_cause_witness :
  let s := fst (WithCancelCause []) in
  let s' := apply_all [OpCancelCause cancel0 None]
              (callCancelCause cancel0 (Some CauseDemo.causeError) s) in
  Done s' ctx0 = true /\ Cause s' ctx0 = Some CauseDemo.causeError.
Proof.
  intros s s'.
  assert (Hp : (0 < List.length s)%nat) by (cbn; lia).
  assert (He : Err s (cancelCtxAt 0) = None) by reflexivity.
  destruct (cancel_cause_then_done_and_cause s 0%nat CauseDemo.causeError
              [OpCancelCause cancel0 None] Hp He) as (H1 & H2 & _).
  split; [exact H1 | exact H2].
Defined.

(** C3.  Calling a cancel function again changes nothing, be it the one
    of [WithCancelCause] or the one of [WithCancel]; after the first
    call on a fresh context the recorded cause is the one of that call
    ([Canceled] when it was nil), whatever is passed to later calls; so the
    deferred [cancel(nil)] of [main] leaves the cause that
    [cancel(causeError)] recorded. *)
Theorem trigger_idempotent :
  (forall (s : store) (f : CancelCauseFunc) (c1 c2 : option error),
      callCancelCause f c2 (callCancelCause f c1 s) = callCancelCause f c1 s) /\
  (forall (s : store) (f : CancelFunc), callCancel f (callCancel f s) = callCancel f s) /\
  (forall (s : store) (c1 : option error) (later : list (option error)),
      let s1 := fst (WithCancelCause s) in
      let ctx := fst (snd (WithCancelCause s)) in
      let f := snd (snd (WithCancelCause s)) in
      let s2 := callCancelCause f c1 s1 in
      fold_left (fun s c => callCancelCause f c s) later s2 = s2 /\
      Cause s2 ctx = Some (match c1 with Some e => e | None => Canceled end)) /\
  (let s1 := fst (WithCancelCause []) in
   Cause (callCancelCause cancel0 None
            (callCancelCause cancel0 (Some CauseDemo.causeError) s1)) ctx0
   = Some CauseDemo.causeError).
Proof.
  assert (Hidem : forall s f c1 c2,
             callCancelCause f c2 (callCancelCause f c1 s) = callCancelCause f c1 s).
  { intros. unfold callCancelCause. apply update_twice. intros c. apply cancel_twice. }
  split; [exact Hidem|].
  split; [intros s f; unfold callCancel; apply update_twice; intros c; apply cancel_twice|].
  split; [|reflexivity].
  intros s c1 later s1 ctx f s2. split.
  - unfold s2. generalize s1. induction later as [|c later IH]; intros s0.
    + reflexivity.
    + change (fold_left (fun s c => callCancelCause f c s) later
                (callCancelCause f c (callCancelCause f c1 s0))
              = callCancelCause f c1 s0).
      rewrite Hidem. apply IH.
  - assert (Hp : (List.length s < List.length s1)%nat).
    { unfold s1. cbn. rewrite length_app. cbn. lia. }
    assert (He : Err s1 (cancelCtxAt (List.length s)) = None).
    { unfold s1. cbn. rewrite lookup_fresh.
      destruct (lookup s (List.length s)) eqn:E.
      - assert (lookup s (List.length s) <> None) as N by congruence.
        apply nth_error_Some in N. lia.
      - now rewrite Nat.eqb_refl. }
    destruct (first_cancel _ _ c1 Hp He) as (c & Hl & _ & _ & Hc).
    unfold s2, f, ctx. cbn in *. now rewrite Hl.
Qed.

(** C7.  Canceling a live, uncanceled context with a nil cause, or with
    the cancel function of [WithCancel], records [context.Canceled] as the
    cause: [context.Cause] is not nil and prints as [context canceled].
    And in a store built by the calls of the package, [context.Cause] of a
    live context is not nil after a cancel call with a nil cause, also when
    the context had been canceled before. *)
Theorem cancel_nil_cause_is_Canceled (s : store) (p : nat) :
  (p < List.length s)%nat ->
  Err s (cancelCtxAt p) = None ->
  let s1 := callCancelCause (mkCancelCauseFunc p) None s in
  let s2 := callCancel (mkCancelFunc p) s in
  Cause s1 (cancelCtxAt p) = Some Canceled /\
  Cause s2 (cancelCtxAt p) = Some Canceled /\
  fmt_v (Cause s1 (cancelCtxAt p)) = "context canceled" /\
  (forall (os : list op) (q : nat),
      (q < List.length (apply_all os []))%nat ->
      Cause (callCancelCause (mkCancelCauseFunc q) None (apply_all os []))
        (cancelCtxAt q) <> None).
Proof.
  intros Hp He s1 s2.
  destruct (first_cancel _ _ None Hp He) as (c & Hl & _ & _ & Hc).
  assert (H1 : Cause s1 (cancelCtxAt p) = Some Canceled).
  { unfold s1. cbn in *. now rewrite Hl. }
  split; [exact H1|]. split; [exact H1|]. split; [now rewrite H1|].
  intros os q Hq.
  destruct (lookup_in_range _ q Hq) as [c0 Hc0].
  unfold callCancelCause. cbn. rewrite lookup_update_same, Hc0. cbn.
  apply cancel_caused. apply (apply_all_caused os q c0 Hc0).
Qed.

Lemma cancel_nil_cause_is_Canceled_witness :
  Cause (callCancelCause cancel0 None (fst (WithCancelCause []))) ctx0 = Some Canceled.
Proof.
  assert (Hp : (0 < List.length (fst (WithCancelCause [])))%nat) by (cbn; lia).
  exact (proj1 (cancel_nil_cause_is_Canceled (fst (WithCancelCause [])) 0%nat Hp
                  eq_refl)).
Defined.

(** C8.  A context that no cancel call is made for stays uncanceled: its
    done channel is never closed, whatever is done to other contexts.  The
    background context has no cancel function at all, so this holds of it
    in every store. *)
Theorem untriggered_stays_untriggered (s : store) (ctx : Context) (os : list op) :
  Done s ctx = false ->
  (forall o, In o os -> targets o ctx = false) ->
  Done (apply_all os s) ctx = false /\
  (forall s' : store, Done s' Background = false /\ Err s' Background = None).
Proof.
  intros Hd Ht. split.
  - now apply apply_all_keeps_open.
  - intros s'. split; reflexivity.
Qed.

Lemma untriggered_stays_untriggered_witness :
  Done (apply_all [OpWithCancelCause; OpCancelCause cancel0 (Some CauseDemo.causeError);
                   OpCancelCause cancel0 None] []) Background = false.
Proof.
  refine (proj1 (untriggered_stays_untriggered [] Background
            [OpWithCancelCause; OpCancelCause cancel0 (Some CauseDemo.causeError);
             OpCancelCause cancel0 None] eq_refl _)).
  intros o _. destruct o; reflexivity.
Defined.

(* ===================================================================== *)
(** * The workers, one at a time *)
(* ===================================================================== *)

#[global] Arguments CauseDemo.leaky_enter : simpl never.
#[global] Arguments CauseDemo.leaky_work : simpl never.
#[global] Arguments CauseDemo.hog_enter : simpl never.
#[global] Arguments CauseDemo.hog_work : simpl never.
#[global] Arguments CauseDemo.hog_received : simpl never.
#[global] Arguments CauseDemo.hog_err_line : simpl never.
#[global] Arguments CauseDemo.hog_cause_line : simpl never.
#[global] Arguments PlainDemo.leaky_enter : simpl never.
#[global] Arguments PlainDemo.leaky_work : simpl never.
#[global] Arguments PlainDemo.safe_enter : simpl never.
#[global] Arguments PlainDemo.safe_work : simpl never.
#[global] Arguments PlainDemo.safe_received : simpl never.
#[global] Arguments PlainDemo.safe_reason_line : simpl never.

(** Taking a [runs] hypothesis apart: the empty run, a silent step, or an
    operation; the step is then computed from the program. *)
Ltac run_inv H x :=
  let Hs := fresh "Hs" in
  let Hr := fresh "Hr" in
  inversion H as [ ? | ? ? ? ? Hs Hr | ? ? ? ? ? Hs Hr ]; subst; clear H;
  [ | unfold tau_step in Hs; cbn in Hs; try contradiction; subst; rename Hr into H
    | unfold vis_step in Hs; cbn in Hs; try contradiction;
      destruct Hs as (x & -> & ->); cbn in Hr; rename Hr into H ].

(** Building a run: one operation answered by [x], or one silent step. *)
Ltac run_vis x :=
  eapply runs_vis; [unfold vis_step; cbn; exists x; split; reflexivity | cbn].
Ltac run_tau :=
  eapply runs_tau; [unfold tau_step; cbn; reflexivity | cbn].

Lemma prefix_of_nil full : prefix_of [] full.
Proof. now exists full. Qed.

Lemma prefix_of_cons l ls full : prefix_of ls full -> prefix_of (l :: ls) (l :: full).
Proof. intros [rest ->]. now exists rest. Qed.

Lemma prefix_of_refl ls : prefix_of ls ls.
Proof. exists []. now rewrite app_nil_r. Qed.

Lemma runs_app {R : Type} (t u v : itree goE R) (l1 l2 : list label) :
  runs t l1 u -> runs u l2 v -> runs t (l1 ++ l2) v.
Proof.
  induction 1 as [t | t u ls w Hs _ IH | t l u ls w Hs _ IH]; intros H2.
  - exact H2.
  - eapply runs_tau; eauto.
  - cbn. eapply runs_vis; eauto.
Qed.

Lemma runs_split {R : Type} (t v : itree goE R) (l1 l2 : list label) :
  runs t (l1 ++ l2) v -> exists u, runs t l1 u /\ runs u l2 v.
Proof.
  intros H. remember (l1 ++ l2) as ls eqn:E. revert l1 l2 E.
  induction H as [t | t u ls w Hs Hr IH | t l u ls w Hs Hr IH]; intros l1 l2 E.
  - symmetry in E. apply app_eq_nil in E as [-> ->]. exists t. split; constructor.
  - destruct (IH _ _ E) as (u' & H1 & H2). exists u'. split; auto.
    eapply runs_tau; eauto.
  - destruct l1 as [|l' l1]; cbn in E.
    + subst l2. exists t. split; [constructor|]. eapply runs_vis; eauto.
    + injection E as -> ->. destruct (IH _ _ eq_refl) as (u' & H1 & H2).
      exists u'. split; auto. eapply runs_vis; eauto.
Qed.

(** The beginning of a trace is a trace. *)
Lemma trace_prefix {R : Type} (t : itree goE R) (ls full : list label) :
  trace t full -> prefix_of ls full -> trace t ls.
Proof.
  intros [v Hv] [rest ->]. destruct (runs_split _ _ _ _ Hv) as (u & Hu & _).
  now exists u.
Qed.

Lemma halts_trace {R : Type} (t : itree goE R) (ls : list label) (r : R) :
  halts t ls r -> trace t ls.
Proof. intros (u & Hu & _). now exists u. Qed.

(** A run depends on its first state only through what that state
    offers next. *)
Lemma runs_obs {R : Type} (t t' u : itree goE R) (ls : list label) :
  observe t = observe t' -> runs t ls u ->
  exists u', runs t' ls u' /\ observe u' = observe u.
Proof.
  intros E H. destruct H as [t | t u ls w Hs Hr | t l u ls w Hs Hr].
  - exists t'. split; [constructor | now symmetry].
  - exists w. split; [| reflexivity]. eapply runs_tau; [| exact Hr].
    unfold tau_step in *. now rewrite <- E.
  - exists w. split; [| reflexivity]. eapply runs_vis; [| exact Hr].
    unfold vis_step in *. now rewrite <- E.
Qed.

Lemma returned_obs {R : Type} (u u' : itree goE R) (r : R) :
  observe u' = observe u -> returned u r -> returned u' r.
Proof. unfold returned. now intros ->. Qed.

(** Restating a run from a state that offers the same as [t']. *)
Ltac obs_change H t' u' H' Hu :=
  match type of H with
  | runs ?t ?ls ?u =>
      destruct (runs_obs t t' u ls eq_refl H) as (u' & H' & Hu); clear H
  end.

(** ** The leaky loop *)

Lemma leaky_loop_runs work n : forall ls u,
  (List.length ls <= n)%nat -> runs (leaky_loop work) ls u ->
  (exists k, prefix_of ls (beats work k)) /\ (forall r, ~ returned u r).
Proof.
  induction n as [n IH] using lt_wf_ind. intros ls u Hn H.
  run_inv H x.
  { split; [exists O; apply prefix_of_nil | intros r []]. }
  run_inv H y.
  { split; [exists 1%nat; repeat apply prefix_of_cons; apply prefix_of_nil | intros r []]. }
  run_inv H z.
  { split; [exists 1%nat; repeat apply prefix_of_cons; apply prefix_of_nil | intros r []]. }
  cbn in Hn.
  match type of H with runs _ ?l _ =>
    destruct (IH (n - 2)%nat ltac:(lia) l u ltac:(lia) H) as [[k Hk] Hret] end.
  split; [| exact Hret].
  exists (S k). cbn. now do 2 apply prefix_of_cons.
Qed.

Lemma leaky_loop_beats work n : runs (leaky_loop work) (beats work n) (leaky_loop work).
Proof.
  induction n as [|n IH]; cbn.
  - constructor.
  - unfold leaky_loop at 1. run_vis tt. run_vis tt. run_tau. exact IH.
Qed.

Lemma leakyCauldron_runs ctx ls u :
  runs (CauseDemo.leakyCauldron ctx) ls u ->
  (exists k, prefix_of ls (leaky_run CauseDemo.leaky_enter CauseDemo.leaky_work k)) /\
  (forall r, ~ returned u r).
Proof.
  intros H. run_inv H x.
  { split; [exists O; apply prefix_of_nil | intros r []]. }
  obs_change H (leaky_loop CauseDemo.leaky_work) u' H' Hu.
  match type of H' with runs _ ?l _ =>
    destruct (leaky_loop_runs CauseDemo.leaky_work (List.length l) l u' (le_n _) H')
      as [[k Hk] Hret] end.
  split.
  - exists k. now apply prefix_of_cons.
  - intros r Hr. apply (Hret r). eapply returned_obs; eauto.
Qed.

Lemma leakyWorker_runs ctx ls u :
  runs (PlainDemo.leakyWorker ctx) ls u ->
  (exists k, prefix_of ls (leaky_run PlainDemo.leaky_enter PlainDemo.leaky_work k)) /\
  (forall r, ~ returned u r).
Proof.
  intros H. run_inv H x.
  { split; [exists O; apply prefix_of_nil | intros r []]. }
  obs_change H (leaky_loop PlainDemo.leaky_work) u' H' Hu.
  match type of H' with runs _ ?l _ =>
    destruct (leaky_loop_runs PlainDemo.leaky_work (List.length l) l u' (le_n _) H')
      as [[k Hk] Hret] end.
  split.
  - exists k. now apply prefix_of_cons.
  - intros r Hr. apply (Hret r). eapply returned_obs; eauto.
Qed.

Lemma leakyCauldron_trace ctx n :
  trace (CauseDemo.leakyCauldron ctx)
    (leaky_run CauseDemo.leaky_enter CauseDemo.leaky_work n).
Proof.
  destruct (runs_obs (leaky_loop CauseDemo.leaky_work)
              (ITree.subst (fun _ : unit => leaky_loop CauseDemo.leaky_work) (Ret tt))
              _ _ eq_refl (leaky_loop_beats CauseDemo.leaky_work n)) as (u' & H' & _).
  exists u'. unfold leaky_run, CauseDemo.leakyCauldron. run_vis tt. exact H'.
Qed.

Lemma leakyWorker_trace ctx n :
  trace (PlainDemo.leakyWorker ctx)
    (leaky_run PlainDemo.leaky_enter PlainDemo.leaky_work n).
Proof.
  destruct (runs_obs (leaky_loop PlainDemo.leaky_work)
              (ITree.subst (fun _ : unit => leaky_loop PlainDemo.leaky_work) (Ret tt))
              _ _ eq_refl (leaky_loop_beats PlainDemo.leaky_work n)) as (u' & H' & _).
  exists u'. unfold leaky_run, PlainDemo.leakyWorker. run_vis tt. exact H'.
Qed.

Lemma work_count_beats work n : work_count work (beats work n) = n.
Proof.
  unfold work_count. induction n as [|n IH]; cbn; auto.
  rewrite String.eqb_refl. cbn. now rewrite IH.
Qed.

(** ** The cooperative loops *)

Ltac short_run := split; [repeat apply prefix_of_cons; apply prefix_of_nil | intros ? []].

Lemma hog_loop_runs t ctx n : forall ls u,
  (List.length ls <= n)%nat -> runs (hog_loop t ctx) ls u ->
  exists k e c,
    let full := ticks CauseDemo.hog_work t ctx k ++
                coop_exit CauseDemo.hog_received CauseDemo.hog_err_line t ctx e ++
                hog_extra ctx c ++ [LTickerStop t] in
    prefix_of ls full /\ (forall r, returned u r -> ls = full).
Proof.
  induction n as [n IH] using lt_wf_ind. intros ls u Hn H.
  run_inv H sel.
  { exists O, None, None. short_run. }
  destruct sel.
  - (* the ticker case *)
    run_inv H x.
    { exists 1%nat, None, None. short_run. }
    run_inv H y.
    { exists 1%nat, None, None. short_run. }
    cbn in Hn.
    match type of H with runs _ ?l _ =>
      destruct (IH (n - 2)%nat ltac:(lia) l u ltac:(lia) H) as (k & e & c & Hp & Hret) end.
    exists (S k), e, c. split.
    + cbn. now do 2 apply prefix_of_cons.
    + intros r Hu. cbn. now rewrite (Hret r Hu).
  - (* the done case *)
    run_inv H x.
    { exists O, None, None. short_run. }
    run_inv H e.
    { exists O, None, None. short_run. }
    run_inv H y.
    { exists O, e, None. short_run. }
    run_inv H c.
    { exists O, e, None. short_run. }
    run_inv H z.
    { exists O, e, c. short_run. }
    run_inv H w.
    { exists O, e, c. short_run. }
    run_inv H v.
    exists O, e, c. split; [apply prefix_of_refl | reflexivity].
Qed.

Lemma safe_loop_runs t ctx n : forall ls u,
  (List.length ls <= n)%nat -> runs (safe_loop t ctx) ls u ->
  exists k e,
    let full := ticks PlainDemo.safe_work t ctx k ++
                coop_exit PlainDemo.safe_received PlainDemo.safe_reason_line t ctx e ++
                [] ++ [LTickerStop t] in
    prefix_of ls full /\ (forall r, returned u r -> ls = full).
Proof.
  induction n as [n IH] using lt_wf_ind. intros ls u Hn H.
  run_inv H sel.
  { exists O, None. short_run. }
  destruct sel.
  - (* the ticker case *)
    run_inv H x.
    { exists 1%nat, None. short_run. }
    run_inv H y.
    { exists 1%nat, None. short_run. }
    cbn in Hn.
    match type of H with runs _ ?l _ =>
      destruct (IH (n - 2)%nat ltac:(lia) l u ltac:(lia) H) as (k & e & Hp & Hret) end.
    exists (S k), e. split.
    + cbn. now do 2 apply prefix_of_cons.
    + intros r Hu. cbn. now rewrite (Hret r Hu).
  - (* the done case *)
    run_inv H x.
    { exists O, None. short_run. }
    run_inv H e.
    { exists O, None. short_run. }
    run_inv H y.
    { exists O, e. short_run. }
    run_inv H w.
    { exists O, e. short_run. }
    run_inv H v.
    exists O, e. split; [apply prefix_of_refl | reflexivity].
Qed.

(** Every run of [hogwarts] is the beginning of a [hog_run], and is all of
    it when the worker has returned. *)
Lemma hogwarts_runs ctx ls u :
  runs (CauseDemo.hogwarts ctx) ls u ->
  exists t k e c,
    prefix_of ls (hog_run t ctx k e c) /\
    (forall r, returned u r -> ls = hog_run t ctx k e c).
Proof.
  intros H. run_inv H x.
  { exists O, O, None, None. short_run. }
  run_inv H t.
  { exists O, O, None, None. short_run. }
  obs_change H (hog_loop t ctx) u' H' Hu.
  match type of H' with runs _ ?l _ =>
    destruct (hog_loop_runs t ctx (List.length l) l u' (le_n _) H')
      as (k & e & c & Hp & Hret) end.
  exists t, k, e, c. split.
  - now do 2 apply prefix_of_cons.
  - intros r Hr. unfold hog_run, coop_run. cbn [app].
    rewrite (Hret r); [reflexivity | eapply returned_obs; eauto].
Qed.

Lemma safeWorker_runs ctx ls u :
  runs (PlainDemo.safeWorker ctx) ls u ->
  exists t k e,
    prefix_of ls (safe_run t ctx k e) /\
    (forall r, returned u r -> ls = safe_run t ctx k e).
Proof.
  intros H. run_inv H x.
  { exists O, O, None. short_run. }
  run_inv H t.
  { exists O, O, None. short_run. }
  obs_change H (safe_loop t ctx) u' H' Hu.
  match type of H' with runs _ ?l _ =>
    destruct (safe_loop_runs t ctx (List.length l) l u' (le_n _) H')
      as (k & e & Hp & Hret) end.
  exists t, k, e. split.
  - now do 2 apply prefix_of_cons.
  - intros r Hr. unfold safe_run, coop_run. cbn [app].
    rewrite (Hret r); [reflexivity | eapply returned_obs; eauto].
Qed.

Lemma hog_loop_ticks t ctx n :
  runs (hog_loop t ctx) (ticks CauseDemo.hog_work t ctx n) (hog_loop t ctx).
Proof.
  induction n as [|n IH]; cbn.
  - constructor.
  - unfold hog_loop at 1. run_vis TickerCase. run_vis tt. run_tau. exact IH.
Qed.

Lemma safe_loop_ticks t ctx n :
  runs (safe_loop t ctx) (ticks PlainDemo.safe_work t ctx n) (safe_loop t ctx).
Proof.
  induction n as [|n IH]; cbn.
  - constructor.
  - unfold safe_loop at 1. run_vis TickerCase. run_vis tt. run_tau. exact IH.
Qed.

(** Every [hog_run] is an execution of [hogwarts] that returns. *)
Lemma hogwarts_halts ctx t k e c :
  halts (CauseDemo.hogwarts ctx) (hog_run t ctx k e c) tt.
Proof.
  assert (Hexit : exists u,
             runs (hog_loop t ctx)
               (coop_exit CauseDemo.hog_received CauseDemo.hog_err_line t ctx e ++
                hog_extra ctx c ++ [LTickerStop t]) u /\ returned u tt).
  { eexists. split.
    - unfold hog_loop. cbn. run_vis DoneCase. run_vis tt. run_vis e. run_vis tt.
      run_vis c. run_vis tt. run_vis tt. constructor.
    - reflexivity. }
  destruct Hexit as (u & Hu & Hret).
  pose proof (runs_app _ _ _ _ _ (hog_loop_ticks t ctx k) Hu) as Hloop.
  match goal with |- halts ?p _ _ =>
    assert (Hhead : exists v, runs p [LPrint CauseDemo.hog_enter; LNewTicker 200 t] v /\
                              observe v = observe (hog_loop t ctx)) end.
  { eexists. split.
    - unfold CauseDemo.hogwarts. run_vis tt. run_vis t. constructor.
    - reflexivity. }
  destruct Hhead as (v & Hv & Ev).
  destruct (runs_obs _ v _ _ (eq_sym Ev) Hloop) as (u' & Hu' & Eu).
  exists u'. split.
  - exact (runs_app _ _ _ _ _ Hv Hu').
  - eapply returned_obs; eauto.
Qed.

Lemma safeWorker_halts ctx t k e :
  halts (PlainDemo.safeWorker ctx) (safe_run t ctx k e) tt.
Proof.
  assert (Hexit : exists u,
             runs (safe_loop t ctx)
               (coop_exit PlainDemo.safe_received PlainDemo.safe_reason_line t ctx e ++
                [] ++ [LTickerStop t]) u /\ returned u tt).
  { eexists. split.
    - unfold safe_loop. cbn. run_vis DoneCase. run_vis tt. run_vis e. run_vis tt.
      run_vis tt. constructor.
    - reflexivity. }
  destruct Hexit as (u & Hu & Hret).
  pose proof (runs_app _ _ _ _ _ (safe_loop_ticks t ctx k) Hu) as Hloop.
  match goal with |- halts ?p _ _ =>
    assert (Hhead : exists v, runs p [LPrint PlainDemo.safe_enter; LNewTicker 200 t] v /\
                              observe v = observe (safe_loop t ctx)) end.
  { eexists. split.
    - unfold PlainDemo.safeWorker. run_vis tt. run_vis t. constructor.
    - reflexivity. }
  destruct Hhead as (v & Hv & Ev).
  destruct (runs_obs _ v _ _ (eq_sym Ev) Hloop) as (u' & Hu' & Eu).
  exists u'. split.
  - exact (runs_app _ _ _ _ _ Hv Hu').
  - eapply returned_obs; eauto.
Qed.

(** ** Where the done case sits in an execution *)

Lemma split_unique (P : label -> bool) (pre post A B : list label) (l D : label) :
  pre ++ l :: post = A ++ D :: B ->
  P l = true ->
  forallb (fun x => negb (P x)) A = true ->
  forallb (fun x => negb (P x)) B = true ->
  pre = A /\ l = D /\ post = B.
Proof.
  revert A. induction pre as [|p pre IH]; intros [|a A] E Hl HA HB; cbn in *.
  - injection E as -> ->. auto.
  - injection E as -> _. apply andb_prop in HA as [Ha _]. rewrite Hl in Ha. discriminate.
  - injection E as -> E.
    assert (Hin : In l B) by (rewrite <- E; apply in_elt).
    rewrite forallb_forall in HB. specialize (HB l Hin). rewrite Hl in HB. discriminate.
  - injection E as -> E. apply andb_prop in HA as [_ HA].
    destruct (IH A E Hl HA HB) as (-> & -> & ->). auto.
Qed.

Lemma ticks_no_done work t ctx n :
  forallb (fun x => negb (is_done_select x)) (ticks work t ctx n) = true.
Proof. induction n as [|n IH]; cbn; auto. Qed.

Lemma work_count_prefix work ls full :
  prefix_of ls full -> work_count work full = 0%nat -> work_count work ls = 0%nat.
Proof.
  intros [rest ->]. unfold work_count. rewrite filter_app, length_app. lia.
Qed.

(** C1.  In every execution of a cooperative worker, whatever the
    environment answers: when a turn of the loop takes the done case, what
    follows is the report (for [hogwarts]: the received line, [ctx.Err()],
    [context.Cause(ctx)], each printed; for [safeWorker]: the received line
    and [ctx.Err()]), then [Stop] on the ticker the worker made, then the
    return, and no work line is printed any more. *)
Theorem zero_work_after_cancel (ctx : Context) (pre post : list label) (l : label) :
  is_done_select l = true ->
  (forall u, runs (CauseDemo.hogwarts ctx) (pre ++ l :: post) u ->
     exists t e c,
       let rest := [LPrint CauseDemo.hog_received; LErr ctx e;
                    LPrint (CauseDemo.hog_err_line e); LCause ctx c;
                    LPrint (CauseDemo.hog_cause_line c); LTickerStop t] in
       l = LSelect t ctx DoneCase /\ In (LNewTicker 200 t) pre /\
       prefix_of post rest /\
       work_count CauseDemo.hog_work post = 0%nat /\
       halts (CauseDemo.hogwarts ctx) (pre ++ l :: rest) tt) /\
  (forall u, runs (PlainDemo.safeWorker ctx) (pre ++ l :: post) u ->
     exists t e,
       let rest := [LPrint PlainDemo.safe_received; LErr ctx e;
                    LPrint (PlainDemo.safe_reason_line e); LTickerStop t] in
       l = LSelect t ctx DoneCase /\ In (LNewTicker 200 t) pre /\
       prefix_of post rest /\
       work_count PlainDemo.safe_work post = 0%nat /\
       halts (PlainDemo.safeWorker ctx) (pre ++ l :: rest) tt).
Proof.
  intros Hl. split; intros u H.
  - destruct (hogwarts_runs ctx _ u H) as (t & k & e & c & [rest Hp] & _).
    exists t, e, c. intros tail.
    set (A := [LPrint CauseDemo.hog_enter; LNewTicker 200 t] ++
              ticks CauseDemo.hog_work t ctx k).
    assert (E : pre ++ l :: (post ++ rest) = A ++ LSelect t ctx DoneCase :: tail).
    { rewrite <- app_assoc in Hp. cbn [app] in Hp. rewrite <- Hp.
      unfold hog_run, coop_run, A. now rewrite <- !app_assoc. }
    destruct (split_unique is_done_select _ _ _ _ _ _ E Hl) as (-> & -> & Hpost).
    { unfold A. rewrite forallb_app, ticks_no_done. reflexivity. }
    { reflexivity. }
    assert (Hpre : prefix_of post tail) by (exists rest; now rewrite Hpost).
    repeat split.
    + unfold A. cbn. auto.
    + exact Hpre.
    + apply (work_count_prefix _ _ _ Hpre). destruct e, c; reflexivity.
    + pose proof (hogwarts_halts ctx t k e c) as Hh.
      unfold hog_run, coop_run in Hh. unfold A. now rewrite <- !app_assoc in *.
  - destruct (safeWorker_runs ctx _ u H) as (t & k & e & [rest Hp] & _).
    exists t, e. intros tail.
    set (A := [LPrint PlainDemo.safe_enter; LNewTicker 200 t] ++
              ticks PlainDemo.safe_work t ctx k).
    assert (E : pre ++ l :: (post ++ rest) = A ++ LSelect t ctx DoneCase :: tail).
    { rewrite <- app_assoc in Hp. cbn [app] in Hp. rewrite <- Hp.
      unfold safe_run, coop_run, A. now rewrite <- !app_assoc. }
    destruct (split_unique is_done_select _ _ _ _ _ _ E Hl) as (-> & -> & Hpost).
    { unfold A. rewrite forallb_app, ticks_no_done. reflexivity. }
    { reflexivity. }
    assert (Hpre : prefix_of post tail) by (exists rest; now rewrite Hpost).
    repeat split.
    + unfold A. cbn. auto.
    + exact Hpre.
    + apply (work_count_prefix _ _ _ Hpre). destruct e; reflexivity.
    + pose proof (safeWorker_halts ctx t k e) as Hh.
      unfold safe_run, coop_run in Hh. unfold A. now rewrite <- !app_assoc in *.
Qed.

Lemma zero_work_after_cancel_witness :
  exists t e c,
    LSelect O ctx0 DoneCase = LSelect t ctx0 DoneCase /\
    prefix_of [LPrint CauseDemo.hog_received]
      [LPrint CauseDemo.hog_received; LErr ctx0 e;
       LPrint (CauseDemo.hog_err_line e); LCause ctx0 c;
       LPrint (CauseDemo.hog_cause_line c); LTickerStop t] /\
    work_count CauseDemo.hog_work [LPrint CauseDemo.hog_received] = 0%nat.
Proof.
  pose (pre := [LPrint CauseDemo.hog_enter; LNewTicker 200 O;
                LSelect O ctx0 TickerCase; LPrint CauseDemo.hog_work]).
  assert (Ht : trace (CauseDemo.hogwarts ctx0)
                 (pre ++ LSelect O ctx0 DoneCase :: [LPrint CauseDemo.hog_received])).
  { apply (trace_prefix _ _ (hog_run O ctx0 1 None None)).
    - exact (halts_trace _ _ _ (hogwarts_halts ctx0 O 1 None None)).
    - eexists. reflexivity. }
  destruct Ht as [u Hu].
  destruct (proj1 (zero_work_after_cancel ctx0 pre [LPrint CauseDemo.hog_received]
                     (LSelect O ctx0 DoneCase) eq_refl) u Hu)
    as (t & e & c & H1 & _ & H3 & H4 & _).
  exists t, e, c. repeat split; assumption.
Defined.

(** C10.  [hogwarts] and [safeWorker] have the same executions up to the
    text of their lines and one report: each prints its entry line, makes
    a ticker of 200ms, prints its work line once for every turn that takes
    the ticker case, and on the turn that takes the done case prints its
    received line and [ctx.Err()], stops the ticker and returns; [hogwarts]
    reads and prints [context.Cause(ctx)] between the error line and the
    stop, and [safeWorker] does nothing there. *)
Theorem hogwarts_safeWorker_same_shape (ctx : Context) :
  (forall ls, trace (CauseDemo.hogwarts ctx) ls <->
     exists t n e c,
       prefix_of ls
         (coop_run CauseDemo.hog_enter CauseDemo.hog_work CauseDemo.hog_received
            CauseDemo.hog_err_line
            [LCause ctx c; LPrint (CauseDemo.hog_cause_line c)] t ctx n e)) /\
  (forall ls, trace (PlainDemo.safeWorker ctx) ls <->
     exists t n e,
       prefix_of ls
         (coop_run PlainDemo.safe_enter PlainDemo.safe_work PlainDemo.safe_received
            PlainDemo.safe_reason_line [] t ctx n e)) /\
  (forall ls r, halts (CauseDemo.hogwarts ctx) ls r <->
     exists t n e c,
       ls = coop_run CauseDemo.hog_enter CauseDemo.hog_work CauseDemo.hog_received
              CauseDemo.hog_err_line
              [LCause ctx c; LPrint (CauseDemo.hog_cause_line c)] t ctx n e) /\
  (forall ls r, halts (PlainDemo.safeWorker ctx) ls r <->
     exists t n e,
       ls = coop_run PlainDemo.safe_enter PlainDemo.safe_work PlainDemo.safe_received
              PlainDemo.safe_reason_line [] t ctx n e).
Proof.
  repeat split.
  - intros [u Hu]. destruct (hogwarts_runs ctx ls u Hu) as (t & k & e & c & Hp & _).
    now exists t, k, e, c.
  - intros (t & k & e & c & Hp).
    exact (trace_prefix _ _ _ (halts_trace _ _ _ (hogwarts_halts ctx t k e c)) Hp).
  - intros [u Hu]. destruct (safeWorker_runs ctx ls u Hu) as (t & k & e & Hp & _).
    now exists t, k, e.
  - intros (t & k & e & Hp).
    exact (trace_prefix _ _ _ (halts_trace _ _ _ (safeWorker_halts ctx t k e)) Hp).
  - intros (u & Hu & Hr).
    destruct (hogwarts_runs ctx ls u Hu) as (t & k & e & c & _ & Hret).
    exists t, k, e, c. exact (Hret r Hr).
  - intros (t & k & e & c & ->). destruct r. apply hogwarts_halts.
  - intros (u & Hu & Hr).
    destruct (safeWorker_runs ctx ls u Hu) as (t & k & e & _ & Hret).
    exists t, k, e. exact (Hret r Hr).
  - intros (t & k & e & ->). destruct r. apply safeWorker_halts.
Qed.

Lemma hogwarts_safeWorker_same_shape_witness :
  exists t n e c,
    prefix_of [LPrint CauseDemo.hog_enter; LNewTicker 200 O]
      (coop_run CauseDemo.hog_enter CauseDemo.hog_work CauseDemo.hog_received
         CauseDemo.hog_err_line
         [LCause ctx0 c; LPrint (CauseDemo.hog_cause_line c)] t ctx0 n e).
Proof.
  apply (proj1 (proj1 (hogwarts_safeWorker_same_shape ctx0)
                  [LPrint CauseDemo.hog_enter; LNewTicker 200 O])).
  eexists. unfold CauseDemo.hogwarts. run_vis tt. run_vis O. constructor.
Defined.

(** ** The controller on its own *)

(** One operation of a run that ends with a return. *)
Ltac ret_inv H Hret x :=
  run_inv H x; [exfalso; unfold returned in Hret; cbn in Hret; exact Hret |].

Lemma main_halts_calls ls r :
  halts CauseDemo.main ls r -> exists ctx f, calls_of ls = main_calls ctx f.
Proof.
  intros (u & H & Hret).
  ret_inv H Hret x1. ret_inv H Hret x2. ret_inv H Hret x3. destruct x3 as [ctx f].
  cbn in H. ret_inv H Hret x4. ret_inv H Hret x5. ret_inv H Hret x6.
  ret_inv H Hret x7. ret_inv H Hret x8. ret_inv H Hret x9. ret_inv H Hret x10.
  ret_inv H Hret x11. ret_inv H Hret x12. ret_inv H Hret x13. ret_inv H Hret x14.
  ret_inv H Hret x15. ret_inv H Hret x16.
  run_inv H x17. exists ctx, f. reflexivity.
Qed.

Lemma main_halts :
  exists ls, halts CauseDemo.main ls tt /\ calls_of ls = main_calls ctx0 cancel0.
Proof.
  eexists. split.
  - eexists. split.
    + unfold CauseDemo.main. run_vis tt. run_vis tt. run_vis (ctx0, cancel0).
      run_vis tt. run_vis tt. run_vis tt. run_vis tt. run_vis tt. run_vis tt.
      run_vis tt. run_vis tt. run_vis tt. run_vis tt. run_vis tt. run_vis tt.
      run_vis tt. constructor.
    + reflexivity.
  - reflexivity.
Qed.

Lemma cancel_count_calls_of ls : cancel_count (calls_of ls) = cancel_count ls.
Proof.
  unfold cancel_count, calls_of. induction ls as [|l ls IH]; [reflexivity|].
  destruct l; cbn in *; auto.
Qed.

(** ** A worker that never looks at its context *)

Lemma leaky_run_no_context enter work n :
  forallb (fun l => negb (touches_context l)) (leaky_run enter work n) = true.
Proof. unfold leaky_run. cbn. induction n as [|n IH]; cbn; auto. Qed.

Lemma prefix_no_context ls full :
  prefix_of ls full ->
  forallb (fun l => negb (touches_context l)) full = true ->
  forallb (fun l => negb (touches_context l)) ls = true.
Proof. intros [rest ->] H. rewrite forallb_app in H. now apply andb_prop in H. Qed.

Lemma exec_obs {R : Type} (rho : env) (n i : nat) (t t' : itree goE R) :
  observe t = observe t' -> exec rho n i t = exec rho n i t'.
Proof. intros E. destruct n; cbn; [reflexivity | now rewrite E]. Qed.

Lemma exec_leaky_loop work rho1 rho2 n : forall i j,
  exec rho1 n i (leaky_loop work) = exec rho2 n j (leaky_loop work).
Proof.
  induction n as [n IH] using lt_wf_ind. intros i j.
  destruct n as [|[|[|n]]]; try reflexivity.
  cbn. do 2 f_equal. apply IH. lia.
Qed.

(** C9.  Canceling a context changes nothing that can be read from
    another context, and nothing at all of the background context; and the
    leaky worker, which holds the background context, does the same
    operations in any two environments, whatever these answer about
    contexts, and none of its operations makes, reads, cancels or passes
    on a context; whereas what [hogwarts] does depends on the
    environment. *)
Theorem leaky_cannot_observe_cancellation :
  (forall (s : store) (f : CancelCauseFunc) (cs : option error) (ctx : Context),
      targets (OpCancelCause f cs) ctx = false ->
      Done (callCancelCause f cs s) ctx = Done s ctx /\
      Err (callCancelCause f cs s) ctx = Err s ctx /\
      Cause (callCancelCause f cs s) ctx = Cause s ctx) /\
  (forall (rho1 rho2 : env) (n : nat),
      exec rho1 n 0 (CauseDemo.leakyCauldron Background) =
      exec rho2 n 0 (CauseDemo.leakyCauldron Background)) /\
  (forall (rho1 rho2 : env) (n : nat),
      exec rho1 n 0 (PlainDemo.leakyWorker Background) =
      exec rho2 n 0 (PlainDemo.leakyWorker Background)) /\
  (forall ctx ls, trace (CauseDemo.leakyCauldron ctx) ls ->
      forallb (fun l => negb (touches_context l)) ls = true) /\
  (forall ctx ls, trace (PlainDemo.leakyWorker ctx) ls ->
      forallb (fun l => negb (touches_context l)) ls = true) /\
  exec (env_const TickerCase None) 3 0 (CauseDemo.hogwarts ctx0) <>
  exec (env_const DoneCase None) 3 0 (CauseDemo.hogwarts ctx0).
Proof.
  split; [|split; [|split; [|split; [|split]]]].
  - intros s f cs ctx H.
    destruct ctx as [|p]; [repeat split; reflexivity|]. cbn in *.
    assert (Hl : lookup (callCancelCause f cs s) p = lookup s p).
    { unfold callCancelCause. apply lookup_update_other.
      intros E. rewrite E, Nat.eqb_refl in H. discriminate. }
    now rewrite Hl.
  - intros rho1 rho2 [|n]; [reflexivity|]. cbn. f_equal.
    match goal with |- exec _ _ _ ?a = exec _ _ _ ?b =>
      rewrite (exec_obs rho1 n 1 a (leaky_loop CauseDemo.leaky_work) eq_refl),
              (exec_obs rho2 n 1 b (leaky_loop CauseDemo.leaky_work) eq_refl) end.
    apply exec_leaky_loop.
  - intros rho1 rho2 [|n]; [reflexivity|]. cbn. f_equal.
    match goal with |- exec _ _ _ ?a = exec _ _ _ ?b =>
      rewrite (exec_obs rho1 n 1 a (leaky_loop PlainDemo.leaky_work) eq_refl),
              (exec_obs rho2 n 1 b (leaky_loop PlainDemo.leaky_work) eq_refl) end.
    apply exec_leaky_loop.
  - intros ctx ls [u Hu].
    destruct (proj1 (leakyCauldron_runs ctx ls u Hu)) as [k Hk].
    exact (prefix_no_context _ _ Hk (leaky_run_no_context _ _ k)).
  - intros ctx ls [u Hu].
    destruct (proj1 (leakyWorker_runs ctx ls u Hu)) as [k Hk].
    exact (prefix_no_context _ _ Hk (leaky_run_no_context _ _ k)).
  - cbn. discriminate.
Qed.

Lemma leaky_cannot_observe_cancellation_witness :
  Cause (callCancelCause cancel0 (Some CauseDemo.causeError) (fst (WithCancelCause [])))
    Background
  = Cause (fst (WithCancelCause [])) Background.
Proof.
  exact (proj2 (proj2 (proj1 leaky_cannot_observe_cancellation
                         (fst (WithCancelCause [])) cancel0
                         (Some CauseDemo.causeError) Background eq_refl))).
Defined.

(* ===================================================================== *)
(** * The whole program *)
(* ===================================================================== *)

(** ** Two representations of the code, the same executions *)

Section Simulation.

Variables T U : Type.
Variable viewT : T -> tview T.
Variable viewU : U -> tview U.
Variable startT : func -> Context -> T.
Variable startU : func -> Context -> U.
Variable f : T -> U.

Inductive view_rel : tview T -> tview U -> Prop :=
| vr_ret : view_rel VRet VRet
| vr_tau t u : u = f t -> view_rel (VTau t) (VTau u)
| vr_vis X (e : goE X) k1 k2 :
    (forall x, k2 x = f (k1 x)) -> view_rel (VVis e k1) (VVis e k2).

Hypothesis view_f : forall t, view_rel (viewT t) (viewU (f t)).
Hypothesis start_f : forall fn ctx, startU fn ctx = f (startT fn ctx).

Lemma replace_nth_map (i : nat) (th : thread T) (l : list (thread T)) :
  replace_nth i (map_thread f th) (map (map_thread f) l) =
  map (map_thread f) (replace_nth i th l).
Proof.
  revert i. induction l as [|a l IH]; intros [|i]; cbn; auto. now rewrite IH.
Qed.

Lemma thread_steps_map (s : sys T) (i : nat) (th : thread T) :
  thread_steps viewU startU (map_sys f s) i (map_thread f th) =
  map (map_sys f) (thread_steps viewT startT s i th).
Proof.
  unfold thread_steps. cbn [finished map_thread]. unfold asleep. cbn [wake now map_sys map_thread].
  destruct (finished th || match wake th with Some w => now s <? w | None => false end);
    [reflexivity|].
  cbn [code name ops ctxs tickers threads exited map_sys map_thread].
  destruct (view_f (code th)) as [| t u -> | X e k1 k2 Hk].
  - destruct (name th); cbn [map]; unfold map_sys; cbn; [reflexivity|].
    now rewrite <- replace_nth_map.
  - cbn [map]. unfold map_sys; cbn. now rewrite <- replace_nth_map.
  - rewrite map_map. apply map_ext. intros o. unfold commit, map_sys. cbn.
    rewrite map_app, <- replace_nth_map, map_map. unfold map_thread at 1. cbn.
    rewrite Hk. f_equal. f_equal. apply map_ext. intros fc.
    unfold map_thread. cbn. now rewrite start_f.
Qed.

Lemma steps_from_map (s : sys T) (l : list (thread T)) (i0 : nat) :
  flat_map (fun p => thread_steps viewU startU (map_sys f s) (fst p) (snd p))
    (combine (seq i0 (List.length l)) (map (map_thread f) l)) =
  map (map_sys f)
    (flat_map (fun p => thread_steps viewT startT s (fst p) (snd p))
       (combine (seq i0 (List.length l)) l)).
Proof.
  revert i0. induction l as [|th l IH]; intros i0; cbn; [reflexivity|].
  now rewrite map_app, thread_steps_map, IH.
Qed.

Lemma moves_map (s : sys T) :
  moves viewU startU (map_sys f s) = map (map_sys f) (moves viewT startT s).
Proof.
  unfold moves. cbn [threads map_sys]. rewrite length_map. apply steps_from_map.
Qed.

Lemma deadlines_map (s : sys T) : deadlines (map_sys f s) = deadlines s.
Proof.
  unfold deadlines. cbn [now threads tickers map_sys]. do 2 f_equal.
  induction (threads s) as [|th l IH]; cbn; [reflexivity|]. now rewrite IH.
Qed.

Lemma succs_map (s : sys T) :
  succs viewU startU (map_sys f s) = map (map_sys f) (succs viewT startT s).
Proof.
  unfold succs. cbn [exited map_sys]. destruct (exited s); [reflexivity|].
  rewrite moves_map. destruct (moves viewT startT s); [|reflexivity].
  cbn [map]. unfold advance. rewrite deadlines_map.
  destruct (minimum (deadlines s)); reflexivity.
Qed.

Lemma path_map_inv (n : nat) (s : sys T) (s' : sys U) :
  path viewU startU n (map_sys f s) s' ->
  exists p, path viewT startT n s p /\ s' = map_sys f p.
Proof.
  revert s. induction n as [|n IH]; intros s H.
  - inversion H; subst. exists s. split; [constructor | reflexivity].
  - inversion H as [|? ? s1 ? Hs Hp]; subst.
    unfold step in Hs. rewrite succs_map in Hs. apply in_map_iff in Hs.
    destruct Hs as (p1 & <- & Hin). destruct (IH p1 Hp) as (p & Hpp & ->).
    exists p. split; [| reflexivity]. econstructor; eauto.
Qed.

End Simulation.

Section Paths.

Variable T : Type.
Variable view : T -> tview T.
Variable start : func -> Context -> T.

Lemma path_snoc (n : nat) (s s1 s2 : sys T) :
  path view start n s s1 -> step view start s1 s2 -> path view start (S n) s s2.
Proof.
  induction 1 as [s | n s sa sb Hs Hp IH]; intros H2.
  - econstructor; [exact H2 | constructor].
  - econstructor; [exact Hs | apply IH, H2].
Qed.

Lemma reach_path (s s' : sys T) :
  reach view start s s' -> exists n, path view start n s s'.
Proof.
  induction 1 as [| s1 s2 Hr [n IH] Hs].
  - exists O. constructor.
  - exists (S n). eapply path_snoc; eauto.
Qed.

Lemma reach_run_first (n : nat) (s0 s : sys T) :
  reach view start s0 s -> reach view start s0 (run_first view start n s).
Proof.
  revert s. induction n as [|n IH]; intros s H; cbn; auto.
  destruct (succs view start s) as [|s' l] eqn:E; auto.
  apply IH. econstructor; [exact H|]. unfold step. rewrite E. now left.
Qed.

Lemma ops_of_map {U : Type} (g : T -> U) (w : who) (s : sys T) :
  ops_of w (map_sys g s) = ops_of w s.
Proof.
  unfold ops_of. cbn [threads map_sys].
  induction (threads s) as [|th l IH]; cbn; [reflexivity|]. now rewrite IH.
Qed.

Lemma finished_of_map {U : Type} (g : T -> U) (w : who) (s : sys T) :
  finished_of w (map_sys g s) = finished_of w s.
Proof.
  unfold finished_of. cbn [threads map_sys].
  induction (threads s) as [|th l IH]; cbn; [reflexivity|]. now rewrite IH.
Qed.

End Paths.

(** ** The exploration is exhaustive *)

Lemma check_sound (Q : sys pos -> bool) (n : nat) : forall fr,
  check Q n fr = true ->
  forall s, In s fr ->
  forall k s', path pos_view pos_start k s s' -> (k < n)%nat /\ Q s' = true.
Proof.
  induction n as [|n IH]; intros fr H s Hin k s' Hp.
  - destruct fr; [contradiction | discriminate].
  - cbn in H. apply andb_prop in H as [HQ Hn].
    inversion Hp as [|k' ? s1 ? Hs Hp']; subst.
    + split; [lia|]. rewrite forallb_forall in HQ. now apply HQ.
    + assert (Hin1 : In s1 (nodup (sys_eq_dec pos_eq_dec) (flat_map psuccs fr))).
      { apply nodup_In, in_flat_map. exists s. split; assumption. }
      destruct (IH _ Hn s1 Hin1 k' s' Hp') as [Hk HQ']. split; [lia | exact HQ'].
Qed.

Lemma decode_ans {X : Type} (e : goE X) (x : X) : decode e (ans e x) = Some x.
Proof. destruct e; cbn; try reflexivity; now destruct x. Qed.

Lemma replay_snoc (t : itree goE unit) (h : list answer) (a : answer) :
  replay t (h ++ [a]) = feed (replay t h) a.
Proof. unfold replay. now rewrite fold_left_app. Qed.

(** A position and the interaction tree it stands for offer the same. *)
Lemma pos_view_at_pos (p : pos) :
  view_rel pos (itree goE unit) at_pos (pos_view p) (itree_view (at_pos p)).
Proof.
  unfold pos_view, itree_view.
  destruct (observe (at_pos p)) as [r | u | X e k] eqn:E.
  - constructor.
  - constructor. unfold at_pos in *. cbn [p_prog p_hist].
    rewrite replay_snoc. unfold feed. now rewrite E.
  - constructor. intros x. unfold at_pos in *. cbn [p_prog p_hist].
    rewrite replay_snoc. unfold feed. now rewrite E, decode_ans.
Qed.

(** Every execution of the demonstration is an execution of the explored
    system, and has gone through the check. *)
Lemma demo_explored (Q : sys pos -> bool) (n : nat) :
  check Q n [pdemo] = true ->
  forall k s, demo_path k s ->
    (k < n)%nat /\ exists p, s = map_sys at_pos p /\ Q p = true.
Proof.
  intros H k s Hp. unfold demo_path in Hp.
  change demo with (map_sys at_pos pdemo) in Hp.
  apply (path_map_inv pos (itree goE unit) pos_view itree_view pos_start body_of at_pos
           pos_view_at_pos (fun _ _ => eq_refl)) in Hp.
  destruct Hp as (p & Hp & ->).
  destruct (check_sound Q n _ H pdemo (or_introl eq_refl) k p Hp) as [Hk HQ].
  split; [exact Hk|]. now exists p.
Qed.

Lemma demo_checked : check demo_ok 100 [pdemo] = true.
Proof. vm_compute. reflexivity. Qed.

Lemma prefixb_sound {A : Type} (eq_dec : forall a b : A, {a = b} + {a <> b})
    (l full : list A) :
  prefixb eq_dec l full = true -> exists rest, full = l ++ rest.
Proof.
  revert full. induction l as [|x l IH]; intros full H.
  - now exists full.
  - destruct full as [|y full]; cbn in H; [discriminate|].
    destruct (eq_dec x y) as [->|]; [|discriminate].
    destruct (IH full H) as [rest ->]. now exists rest.
Qed.

Lemma list_eqb_sound {A : Type} (eq_dec : forall a b : A, {a = b} + {a <> b})
    (l1 l2 : list A) :
  list_eqb eq_dec l1 l2 = true -> l1 = l2.
Proof. unfold list_eqb. now destruct (list_eq_dec eq_dec l1 l2). Qed.

Lemma lines_of_map {T U : Type} (g : T -> U) (w : who) (s : sys T) :
  lines_of w (map_sys g s) = lines_of w s.
Proof. unfold lines_of. now rewrite ops_of_map. Qed.

Lemma protocol_of_map {T U : Type} (g : T -> U) (w : who) (s : sys T) :
  protocol_of w (map_sys g s) = protocol_of w s.
Proof. unfold protocol_of. now rewrite ops_of_map. Qed.

(** Every state the demonstration can be in stands for an explored
    state, which has passed the check. *)
Lemma demo_state (s : sys (itree goE unit)) :
  demo_reach s -> exists p, s = map_sys at_pos p /\ demo_ok p = true.
Proof.
  intros Hr. destruct (reach_path _ _ _ _ _ Hr) as [k Hk].
  exact (proj2 (demo_explored demo_ok 100 demo_checked k s Hk)).
Qed.

(** Splitting the check of a state into its parts. *)
Ltac demo_parts s Hr p :=
  let HQ := fresh "HQ" in
  destruct (demo_state s Hr) as (p & -> & HQ);
  unfold demo_ok in HQ;
  do 6 (let H := fresh "Hok" in apply andb_prop in HQ as [HQ H]);
  rewrite ?protocol_of_map, ?lines_of_map, ?finished_of_map;
  cbn [now ctxs exited map_sys].

Lemma demo_succs (p : sys pos) :
  succs itree_view body_of (map_sys at_pos p) = map (map_sys at_pos) (psuccs p).
Proof.
  exact (succs_map pos (itree goE unit) pos_view itree_view pos_start body_of at_pos
           pos_view_at_pos (fun _ _ => eq_refl) p).
Qed.

Lemma demo_controller (s : sys (itree goE unit)) :
  demo_reach s ->
  (exists rest, main_protocol = protocol_of Main s ++ rest) /\
  (exited s = true -> protocol_of Main s = main_protocol).
Proof.
  intros Hr. demo_parts s Hr p.
  match goal with H : ok_controller p = true |- _ =>
    unfold ok_controller in H; apply andb_prop in H as [Ha Hb] end.
  split.
  - now apply (prefixb_sound timed_label_eq_dec).
  - intros E. rewrite E in Hb. now apply (list_eqb_sound timed_label_eq_dec).
Qed.

Lemma demo_store (s : sys (itree goE unit)) :
  demo_reach s -> ctxs s = signal_after (List.length (protocol_of Main s)).
Proof.
  intros Hr. demo_parts s Hr p.
  match goal with H : ok_store p = true |- _ =>
    now apply (list_eqb_sound cancelCtx_eq_dec) end.
Qed.

Lemma demo_store_steps (s s' : sys (itree goE unit)) :
  demo_reach s -> demo_step s s' ->
  ctxs s' = ctxs s \/
  protocol_of Main s' = firstn 1 main_protocol \/
  protocol_of Main s' = firstn 5 main_protocol.
Proof.
  intros Hr Hs. revert Hs. demo_parts s Hr p. intros Hs.
  unfold demo_step, step in Hs. rewrite demo_succs in Hs.
  apply in_map_iff in Hs as (p' & <- & Hin).
  match goal with H : ok_store_steps p = true |- _ =>
    unfold ok_store_steps in H; rewrite forallb_forall in H; specialize (H p' Hin);
    apply orb_prop in H as [H|H]; [apply orb_prop in H as [H|H]|] end.
  - left. now apply (list_eqb_sound cancelCtx_eq_dec).
  - right. left. rewrite protocol_of_map. now apply (list_eqb_sound timed_label_eq_dec).
  - right. right. rewrite protocol_of_map. now apply (list_eqb_sound timed_label_eq_dec).
Qed.

Lemma demo_hogwarts (s : sys (itree goE unit)) :
  demo_reach s -> exists rest, hog_lines = lines_of (Started fn_hogwarts) s ++ rest.
Proof.
  intros Hr. demo_parts s Hr p.
  match goal with H : ok_hogwarts p = true |- _ =>
    now apply (prefixb_sound timed_line_eq_dec) end.
Qed.

Lemma demo_exit (s : sys (itree goE unit)) :
  demo_reach s -> exited s = true ->
  now s = 3500 /\
  lines_of (Started fn_hogwarts) s = hog_lines /\
  (lines_of (Started fn_leakyCauldron) s = leaky_lines 6 \/
   lines_of (Started fn_leakyCauldron) s = leaky_lines 7) /\
  finished_of (Started fn_hogwarts) s = [true].
Proof.
  intros Hr. demo_parts s Hr p. intros E.
  match goal with H : ok_exit p = true |- _ =>
    unfold ok_exit in H; rewrite E in H; cbn [negb orb] in H;
    apply andb_prop in H as [H H4]; apply andb_prop in H as [H H3];
    apply andb_prop in H as [H1 H2] end.
  split; [now apply Z.eqb_eq|].
  split; [now apply (list_eqb_sound timed_line_eq_dec)|].
  split; [|now apply (list_eqb_sound bool_dec)].
  apply orb_prop in H3 as [H3|H3]; [left | right];
    now apply (list_eqb_sound timed_line_eq_dec).
Qed.

Lemma demo_leaky (s : sys (itree goE unit)) :
  demo_reach s ->
  now s / 500 - 1 <= leaky_work_count s <= now s / 500 /\
  (forall b, In b (finished_of (Started fn_leakyCauldron) s) -> b = false).
Proof.
  intros Hr. demo_parts s Hr p. unfold leaky_work_count. rewrite lines_of_map.
  match goal with H : ok_leaky p = true |- _ =>
    unfold ok_leaky, leaky_work_count in H;
    apply andb_prop in H as [H H3]; apply andb_prop in H as [H1 H2] end.
  split; [split; now apply Z.leb_le|].
  intros b Hb. destruct b; [|reflexivity].
  apply negb_true_iff in H3. rewrite <- H3. symmetry.
  apply existsb_exists. exists true. split; [exact Hb | reflexivity].
Qed.

Lemma demo_progress (s : sys (itree goE unit)) :
  demo_reach s -> succs itree_view body_of s = [] -> exited s = true.
Proof.
  intros Hr. demo_parts s Hr p. rewrite demo_succs. intros E.
  match goal with H : ok_progress p = true |- _ => unfold ok_progress in H end.
  destruct (exited p); [reflexivity|]. destruct (psuccs p); discriminate.
Qed.

Lemma demo_bounded (k : nat) (s : sys (itree goE unit)) :
  demo_path k s -> (k < 100)%nat.
Proof. intros Hk. exact (proj1 (demo_explored demo_ok 100 demo_checked k s Hk)). Qed.

(** The state in which the demonstration ends when the first goroutine
    that can move always moves. *)
Lemma demo_end_reached : demo_reach (run_first itree_view body_of 100 demo).
Proof. apply reach_run_first. constructor. Qed.

(** C5, with the deferred call.  Every execution of [main] that returns
    has performed, prints left out, these operations in this order: make
    the context, start [leakyCauldron] with the background context, start
    [hogwarts] with the context made, sleep 1500ms, cancel with
    [causeError], sleep 2000ms, and the deferred [cancel(nil)]: two calls
    of the cancel function.  In the demonstration they happen at 0ms, at
    1500ms and at the return of [main] at 3500ms, after which the program
    exits; the context is uncanceled up to the fourth of them and canceled
    with [causeError] from the fifth on, and no step changes the store but
    the making of the context and the call with [causeError], so the
    deferred call changes nothing. *)
Theorem controller_order :
  (forall ls r, halts CauseDemo.main ls r ->
     exists ctx f, calls_of ls = main_calls ctx f /\ cancel_count ls = 2%nat) /\
  (forall s, demo_reach s ->
     (exists rest, main_protocol = protocol_of Main s ++ rest) /\
     (exited s = true -> protocol_of Main s = main_protocol) /\
     (succs itree_view body_of s = [] -> exited s = true) /\
     ctxs s = signal_after (List.length (protocol_of Main s)) /\
     (forall s', demo_step s s' ->
        ctxs s' = ctxs s \/
        protocol_of Main s' = firstn 1 main_protocol \/
        protocol_of Main s' = firstn 5 main_protocol)).
Proof.
  split.
  - intros ls r Hh. destruct (main_halts_calls ls r Hh) as (ctx & f & Hc).
    exists ctx, f. split; [exact Hc|].
    now rewrite <- cancel_count_calls_of, Hc.
  - intros s Hr. destruct (demo_controller s Hr) as [H1 H2].
    split; [exact H1|]. split; [exact H2|].
    split; [exact (demo_progress s Hr)|].
    split; [exact (demo_store s Hr)|].
    intros s'. exact (demo_store_steps s s' Hr).
Qed.

Lemma controller_order_witness :
  protocol_of Main (run_first itree_view body_of 100 demo) = main_protocol /\
  ctxs (run_first itree_view body_of 100 demo) =
    [mkCancelCtx true (Some Canceled) (Some CauseDemo.causeError)].
Proof.
  destruct (proj2 controller_order _ demo_end_reached) as (_ & H2 & _ & H3 & _).
  assert (E : exited (run_first itree_view body_of 100 demo) = true)
    by (vm_compute; reflexivity).
  split.
  - exact (H2 E).
  - rewrite H3, (H2 E). reflexivity.
Defined.

(** C5 as the specification words it does not hold: [main] calls the
    cancel function twice, with [causeError] and, deferred to its return,
    with nil. *)
Lemma controller_cancels_twice :
  ~ (forall ls r, halts CauseDemo.main ls r -> cancel_count ls = 1%nat).
Proof.
  intros H. destruct main_halts as (ls & Hh & Hc).
  specialize (H ls tt Hh).
  rewrite <- cancel_count_calls_of, Hc in H. discriminate H.
Qed.

(** C4.  A leaky worker never returns; its executions are its entry
    line followed by turns of sleeping 500ms and printing the work line,
    as many as one likes, so that the number of work lines grows by one
    with every turn; no operation of it reads a context.  In the
    demonstration the number of work lines [leakyCauldron] has printed
    follows the clock, before and after the cancellation alike: at time
    [t] it is [t / 500], or one less when the line of that instant is
    still to come; and [leakyCauldron] has never returned. *)
Theorem leaky_never_stops :
  (forall ctx ls r, ~ halts (CauseDemo.leakyCauldron ctx) ls r) /\
  (forall ctx ls, trace (CauseDemo.leakyCauldron ctx) ls <->
     exists n, prefix_of ls (leaky_run CauseDemo.leaky_enter CauseDemo.leaky_work n)) /\
  (forall n, work_count CauseDemo.leaky_work
               (leaky_run CauseDemo.leaky_enter CauseDemo.leaky_work n) = n) /\
  (forall ctx ls r, ~ halts (PlainDemo.leakyWorker ctx) ls r) /\
  (forall ctx ls, trace (PlainDemo.leakyWorker ctx) ls <->
     exists n, prefix_of ls (leaky_run PlainDemo.leaky_enter PlainDemo.leaky_work n)) /\
  (forall n, work_count PlainDemo.leaky_work
               (leaky_run PlainDemo.leaky_enter PlainDemo.leaky_work n) = n) /\
  (forall s, demo_reach s ->
     now s / 500 - 1 <= leaky_work_count s <= now s / 500 /\
     (forall b, In b (finished_of (Started fn_leakyCauldron) s) -> b = false)).
Proof.
  split; [|split; [|split; [|split; [|split; [|split]]]]].
  - intros ctx ls r (u & Hu & Hr).
    exact (proj2 (leakyCauldron_runs ctx ls u Hu) r Hr).
  - intros ctx ls. split.
    + intros [u Hu]. exact (proj1 (leakyCauldron_runs ctx ls u Hu)).
    + intros [n Hn]. exact (trace_prefix _ _ _ (leakyCauldron_trace ctx n) Hn).
  - intros n. unfold leaky_run.
    change (work_count CauseDemo.leaky_work (beats CauseDemo.leaky_work n) = n).
    apply work_count_beats.
  - intros ctx ls r (u & Hu & Hr).
    exact (proj2 (leakyWorker_runs ctx ls u Hu) r Hr).
  - intros ctx ls. split.
    + intros [u Hu]. exact (proj1 (leakyWorker_runs ctx ls u Hu)).
    + intros [n Hn]. exact (trace_prefix _ _ _ (leakyWorker_trace ctx n) Hn).
  - intros n. unfold leaky_run.
    change (work_count PlainDemo.leaky_work (beats PlainDemo.leaky_work n) = n).
    apply work_count_beats.
  - exact demo_leaky.
Qed.

Lemma leaky_never_stops_witness :
  now (run_first itree_view body_of 100 demo) / 500 - 1
  <= leaky_work_count (run_first itree_view body_of 100 demo)
  <= now (run_first itree_view body_of 100 demo) / 500.
Proof.
  exact (proj1 (proj2 (proj2 (proj2 (proj2 (proj2 (proj2 leaky_never_stops)))))
                  _ demo_end_reached)).
Defined.

(* ===================================================================== *)
(** * The plain demonstration, and more on the workers *)
(* ===================================================================== *)

(** ** The plain [main] on its own *)

Lemma plain_main_halts_calls ls r :
  halts PlainDemo.main ls r -> exists ctx f, calls_of ls = plain_calls ctx f.
Proof.
  intros (u & H & Hret).
  ret_inv H Hret x1. ret_inv H Hret x2. ret_inv H Hret x3. destruct x3 as [ctx f].
  cbn in H. ret_inv H Hret x4. ret_inv H Hret x5. ret_inv H Hret x6.
  ret_inv H Hret x7. ret_inv H Hret x8. ret_inv H Hret x9. ret_inv H Hret x10.
  ret_inv H Hret x11. ret_inv H Hret x12. ret_inv H Hret x13. ret_inv H Hret x14.
  ret_inv H Hret x15. ret_inv H Hret x16.
  run_inv H x17. exists ctx, f. reflexivity.
Qed.

Lemma plain_main_run_halts : halts PlainDemo.main plain_main_run tt.
Proof.
  eexists. split.
  - unfold PlainDemo.main. run_vis tt. run_vis tt. run_vis (ctx0, cancel0').
    run_vis tt. run_vis tt. run_vis tt. run_vis tt. run_vis tt. run_vis tt.
    run_vis tt. run_vis tt. run_vis tt. run_vis tt. run_vis tt. run_vis tt.
    run_vis tt. constructor.
  - reflexivity.
Qed.

(** X1.  Every execution of the plain [main] that returns has performed,
    prints left out, these operations in this order: make the context with
    [WithCancel], start [leakyWorker] with the background context, start
    [safeWorker] with the context made, sleep 1500ms, call [cancel], sleep
    2000ms, and the deferred [cancel()]: two calls of the cancel function,
    both after the two workers were started, and no read of the context. *)
Theorem plain_main_order (ls : list label) (r : unit) :
  halts PlainDemo.main ls r ->
  exists ctx f, calls_of ls = plain_calls ctx f /\ cancel_count ls = 2%nat.
Proof.
  intros Hh. destruct (plain_main_halts_calls ls r Hh) as (ctx & f & Hc).
  exists ctx, f. split; [exact Hc|].
  now rewrite <- cancel_count_calls_of, Hc.
Qed.

Lemma plain_main_order_witness :
  exists ctx f, calls_of plain_main_run = plain_calls ctx f /\
                cancel_count plain_main_run = 2%nat.
Proof. exact (plain_main_order plain_main_run tt plain_main_run_halts). Defined.

(** ** Positions of the code of any program *)

Section AnyMainFacts.

Variable the_main : itree goE unit.

Lemma check_in_sound (Q : sys pos -> bool) (n : nat) : forall fr,
  check_in the_main Q n fr = true ->
  forall s, In s fr ->
  forall k s', path (pos_view_in the_main) pos_start k s s' -> (k < n)%nat /\ Q s' = true.
Proof.
  induction n as [|n IH]; intros fr H s Hin k s' Hp.
  - destruct fr; [contradiction | discriminate].
  - cbn in H. apply andb_prop in H as [HQ Hn].
    inversion Hp as [|k' ? s1 ? Hs Hp']; subst.
    + split; [lia|]. rewrite forallb_forall in HQ. now apply HQ.
    + assert (Hin1 : In s1 (nodup (sys_eq_dec pos_eq_dec)
                              (flat_map (succs_in the_main) fr))).
      { apply nodup_In, in_flat_map. exists s. split; assumption. }
      destruct (IH _ Hn s1 Hin1 k' s' Hp') as [Hk HQ']. split; [lia | exact HQ'].
Qed.

Lemma pos_view_in_at_pos (p : pos) :
  view_rel pos (itree goE unit) (at_pos_in the_main)
    (pos_view_in the_main p) (itree_view (at_pos_in the_main p)).
Proof.
  unfold pos_view_in, itree_view.
  destruct (observe (at_pos_in the_main p)) as [r | u | X e k] eqn:E.
  - constructor.
  - constructor. unfold at_pos_in in *. cbn [p_prog p_hist].
    rewrite replay_snoc. unfold feed. now rewrite E.
  - constructor. intros x. unfold at_pos_in in *. cbn [p_prog p_hist].
    rewrite replay_snoc. unfold feed. now rewrite E, decode_ans.
Qed.

Lemma succs_in_map (p : sys pos) :
  succs itree_view body_of (map_sys (at_pos_in the_main) p) =
  map (map_sys (at_pos_in the_main)) (succs_in the_main p).
Proof.
  exact (succs_map pos (itree goE unit) (pos_view_in the_main) itree_view pos_start
           body_of (at_pos_in the_main) pos_view_in_at_pos (fun _ _ => eq_refl) p).
Qed.

(** Every execution of the program is an execution of the explored system,
    and has gone through the check. *)
Lemma explored_in (Q : sys pos -> bool) (n : nat) :
  check_in the_main Q n [pdemo] = true ->
  forall k s, path itree_view body_of k (boot the_main) s ->
    (k < n)%nat /\ exists p, s = map_sys (at_pos_in the_main) p /\ Q p = true.
Proof.
  intros H k s Hp.
  change (boot the_main) with (map_sys (at_pos_in the_main) pdemo) in Hp.
  apply (path_map_inv pos (itree goE unit) (pos_view_in the_main) itree_view pos_start
           body_of (at_pos_in the_main) pos_view_in_at_pos (fun _ _ => eq_refl)) in Hp.
  destruct Hp as (p & Hp & ->).
  destruct (check_in_sound Q n _ H pdemo (or_introl eq_refl) k p Hp) as [Hk HQ].
  split; [exact Hk|]. now exists p.
Qed.

End AnyMainFacts.

Lemma has_printed_map {T U : Type} (g : T -> U) (w : who) (line : string) (s : sys T) :
  has_printed w line (map_sys g s) = has_printed w line s.
Proof. unfold has_printed. now rewrite lines_of_map. Qed.

Lemma none_finished (l : list bool) :
  existsb (fun b => b) l = false -> forall b, In b l -> b = false.
Proof.
  intros H b Hb. destruct b; [|reflexivity].
  rewrite <- H. symmetry. apply existsb_exists. exists true. split; [exact Hb | reflexivity].
Qed.

(** ** The demonstration, whatever of these causes [main] cancels with *)

Lemma main_with_causeError : main_with CauseDemo.causeError = CauseDemo.main.
Proof. reflexivity. Qed.

Lemma scenario_checked_shutdown :
  check_in (main_with shutdown) (scenario_ok shutdown) 100 [pdemo] = true.
Proof. vm_compute. reflexivity. Qed.

Lemma scenario_checked_causeError :
  check_in (main_with CauseDemo.causeError) (scenario_ok CauseDemo.causeError) 100 [pdemo]
  = true.
Proof. vm_compute. reflexivity. Qed.

Lemma scenario_checked (cause : error) :
  In cause scenario_causes ->
  check_in (main_with cause) (scenario_ok cause) 100 [pdemo] = true.
Proof.
  intros [<-|[<-|[]]];
    [exact scenario_checked_shutdown | exact scenario_checked_causeError].
Qed.

Lemma scenario_state (cause : error) (s : sys (itree goE unit)) :
  In cause scenario_causes -> scenario_reach cause s ->
  exists p, s = map_sys (at_pos_in (main_with cause)) p /\ scenario_ok cause p = true.
Proof.
  intros Hc Hr. destruct (reach_path _ _ _ _ _ Hr) as [k Hk].
  exact (proj2 (explored_in (main_with cause) (scenario_ok cause) 100
                  (scenario_checked cause Hc) k s Hk)).
Qed.

Ltac scenario_parts cause Hc s Hr p :=
  let HQ := fresh "HQ" in
  destruct (scenario_state cause s Hc Hr) as (p & -> & HQ);
  unfold scenario_ok in HQ;
  do 3 (let H := fresh "Hok" in apply andb_prop in HQ as [HQ H]);
  rewrite ?protocol_of_map, ?lines_of_map, ?finished_of_map;
  cbn [now ctxs exited map_sys].

Lemma scenario_bounded (cause : error) (k : nat) (s : sys (itree goE unit)) :
  In cause scenario_causes -> scenario_path cause k s -> (k < 100)%nat.
Proof.
  intros Hc Hk.
  exact (proj1 (explored_in (main_with cause) (scenario_ok cause) 100
                  (scenario_checked cause Hc) k s Hk)).
Qed.

Lemma scenario_always (cause : error) (s : sys (itree goE unit)) :
  In cause scenario_causes -> scenario_reach cause s ->
  (succs itree_view body_of s = [] -> exited s = true) /\
  (exists rest, protocol_with cause = protocol_of Main s ++ rest) /\
  (exists rest, hog_lines_with cause = lines_of (Started fn_hogwarts) s ++ rest) /\
  (exists rest, leaky_lines 7 = lines_of (Started fn_leakyCauldron) s ++ rest) /\
  now s / 500 - 1 <= leaky_work_count s <= now s / 500 /\
  (forall b, In b (finished_of (Started fn_leakyCauldron) s) -> b = false).
Proof.
  intros Hc Hr. scenario_parts cause Hc s Hr p.
  unfold leaky_work_count. rewrite lines_of_map, succs_in_map.
  unfold scenario_ok_controller in HQ. apply andb_prop in HQ as [Hp _].
  match goal with H : scenario_ok_hogwarts cause p = true |- _ =>
    unfold scenario_ok_hogwarts in H; apply andb_prop in H as [Hh _] end.
  match goal with H : scenario_ok_leaky p = true |- _ =>
    unfold scenario_ok_leaky in H; apply andb_prop in H as [H _];
    apply andb_prop in H as [H Hl]; unfold ok_leaky, leaky_work_count in H;
    apply andb_prop in H as [H H3]; apply andb_prop in H as [H1 H2] end.
  match goal with H : scenario_ok_progress cause p = true |- _ =>
    unfold scenario_ok_progress in H; rename H into Hg end.
  split.
  { intros E. destruct (exited p); [reflexivity|].
    destruct (succs_in (main_with cause) p); discriminate. }
  split; [now apply (prefixb_sound timed_label_eq_dec)|].
  split; [now apply (prefixb_sound timed_line_eq_dec)|].
  split; [now apply (prefixb_sound timed_line_eq_dec)|].
  split; [split; now apply Z.leb_le|].
  apply none_finished. now apply negb_true_iff.
Qed.

Lemma scenario_exit (cause : error) (s : sys (itree goE unit)) :
  In cause scenario_causes -> scenario_reach cause s -> exited s = true ->
  now s = 3500 /\
  protocol_of Main s = protocol_with cause /\
  lines_of (Started fn_hogwarts) s = hog_lines_with cause /\
  finished_of (Started fn_hogwarts) s = [true] /\
  (lines_of (Started fn_leakyCauldron) s = leaky_lines 6 \/
   lines_of (Started fn_leakyCauldron) s = leaky_lines 7).
Proof.
  intros Hc Hr. scenario_parts cause Hc s Hr p. intros E.
  unfold scenario_ok_controller in HQ. apply andb_prop in HQ as [_ Hp].
  rewrite E in Hp. cbn [negb orb] in Hp.
  match goal with H : scenario_ok_hogwarts cause p = true |- _ =>
    unfold scenario_ok_hogwarts in H; apply andb_prop in H as [_ H];
    rewrite E in H; cbn [negb orb] in H;
    apply andb_prop in H as [H Hf]; apply andb_prop in H as [Hn Hh] end.
  match goal with H : scenario_ok_leaky p = true |- _ =>
    unfold scenario_ok_leaky in H; apply andb_prop in H as [_ Hl];
    rewrite E in Hl; cbn [negb orb] in Hl end.
  split; [now apply Z.eqb_eq|].
  split; [now apply (list_eqb_sound timed_label_eq_dec)|].
  split; [now apply (list_eqb_sound timed_line_eq_dec)|].
  split; [now apply (list_eqb_sound bool_dec)|].
  apply orb_prop in Hl as [Hl|Hl]; [left | right];
    now apply (list_eqb_sound timed_line_eq_dec).
Qed.

Lemma scenario_end_reached (cause : error) :
  scenario_reach cause (run_first itree_view body_of 100 (scenario cause)).
Proof. apply reach_run_first. constructor. Qed.

(** C6.  [main_with cause] is [main] with the error it cancels with as a
    parameter: it makes the context, starts both workers, sleeps 1500ms,
    cancels with [cause] and sleeps 2000ms.  For the cause [shutdown] and
    for the cause [main] itself passes, every execution of the program
    goes through these operations at 0ms, 1500ms and 3500ms, and ends,
    within 100 steps and by the exit of [main] at 3500ms.  What [hogwarts]
    has printed is at every moment a beginning of [hog_lines_with cause],
    and at the exit it is all of it: its received line exactly once, at
    1500ms, followed by the error line and by the cause line that carries
    [cause], and no work line after the received line; and [hogwarts] has
    returned.  [leakyCauldron] prints a work line every 500ms throughout:
    at every moment, before and after the cancellation, the number of its
    work lines is the time divided by 500, or one less when the line of
    that instant is still to come, and it has never returned. *)
Theorem demonstration_run :
  main_with CauseDemo.causeError = CauseDemo.main /\
  forall cause, In cause scenario_causes ->
    (forall k s, scenario_path cause k s -> (k < 100)%nat) /\
    (forall s, scenario_reach cause s ->
       (succs itree_view body_of s = [] -> exited s = true) /\
       (exists rest, protocol_with cause = protocol_of Main s ++ rest) /\
       (exists rest, hog_lines_with cause = lines_of (Started fn_hogwarts) s ++ rest) /\
       (exists rest, leaky_lines 7 = lines_of (Started fn_leakyCauldron) s ++ rest) /\
       now s / 500 - 1 <= leaky_work_count s <= now s / 500 /\
       (forall b, In b (finished_of (Started fn_leakyCauldron) s) -> b = false)) /\
    (forall s, scenario_reach cause s -> exited s = true ->
       now s = 3500 /\
       protocol_of Main s = protocol_with cause /\
       lines_of (Started fn_hogwarts) s = hog_lines_with cause /\
       count_line CauseDemo.hog_received (lines_of (Started fn_hogwarts) s) = 1%nat /\
       after_line CauseDemo.hog_received (lines_of (Started fn_hogwarts) s) =
         [(1500, CauseDemo.hog_err_line (Some Canceled));
          (1500, CauseDemo.hog_cause_line (Some cause))] /\
       count_line CauseDemo.hog_work
         (after_line CauseDemo.hog_received (lines_of (Started fn_hogwarts) s)) = 0%nat /\
       finished_of (Started fn_hogwarts) s = [true] /\
       (lines_of (Started fn_leakyCauldron) s = leaky_lines 6 \/
        lines_of (Started fn_leakyCauldron) s = leaky_lines 7)).
Proof.
  split; [exact main_with_causeError|]. intros cause Hc.
  split; [intros k s; exact (scenario_bounded cause k s Hc)|].
  split; [intros s; exact (scenario_always cause s Hc)|].
  intros s Hr He. destruct (scenario_exit cause s Hc Hr He) as (Hn & Hp & Hh & Hf & Hl).
  rewrite Hh.
  split; [exact Hn|]. split; [exact Hp|]. split; [reflexivity|].
  destruct Hc as [<-|[<-|[]]]; repeat split; try assumption; reflexivity.
Qed.

Lemma demonstration_run_witness :
  after_line CauseDemo.hog_received
    (lines_of (Started fn_hogwarts) (run_first itree_view body_of 100 (scenario shutdown)))
  = [(1500, ("Cancellation error (ctx.Err()): context canceled" ++ nl)%string);
     (1500, ("Cancellation cause (context.Cause()): shutdown" ++ nl)%string)].
Proof.
  refine (proj1 (proj2 (proj2 (proj2 (proj2
            (proj2 (proj2 (proj2 demonstration_run shutdown (or_introl eq_refl)))
               _ (scenario_end_reached shutdown) _)))))).
  vm_compute. reflexivity.
Defined.

(** ** The plain demonstration *)

Lemma plain_checked : check_in PlainDemo.main plain_ok 100 [pdemo] = true.
Proof. vm_compute. reflexivity. Qed.

Lemma plain_state (s : sys (itree goE unit)) :
  plain_reach s ->
  exists p, s = map_sys (at_pos_in PlainDemo.main) p /\ plain_ok p = true.
Proof.
  intros Hr. destruct (reach_path _ _ _ _ _ Hr) as [k Hk].
  exact (proj2 (explored_in PlainDemo.main plain_ok 100 plain_checked k s Hk)).
Qed.

Ltac plain_parts s Hr p :=
  let HQ := fresh "HQ" in
  destruct (plain_state s Hr) as (p & -> & HQ);
  unfold plain_ok in HQ;
  do 4 (let H := fresh "Hok" in apply andb_prop in HQ as [HQ H]);
  rewrite ?protocol_of_map, ?lines_of_map, ?finished_of_map, ?has_printed_map;
  cbn [now ctxs exited map_sys].

Lemma plain_bounded (k : nat) (s : sys (itree goE unit)) :
  plain_path k s -> (k < 100)%nat.
Proof.
  intros Hk. exact (proj1 (explored_in PlainDemo.main plain_ok 100 plain_checked k s Hk)).
Qed.

Lemma plain_progress (s : sys (itree goE unit)) :
  plain_reach s -> succs itree_view body_of s = [] -> exited s = true.
Proof.
  intros Hr. plain_parts s Hr p. rewrite succs_in_map. intros E.
  match goal with H : plain_ok_progress p = true |- _ => unfold plain_ok_progress in H end.
  destruct (exited p); [reflexivity|].
  destruct (succs_in PlainDemo.main p); discriminate.
Qed.

Lemma plain_end_reached : plain_reach (run_first itree_view body_of 100 plain).
Proof. apply reach_run_first. constructor. Qed.

(** X2.  Every execution of the plain demonstration ends, within 100 steps
    and by the exit of [main] at 3500ms.  What [safeWorker] has printed is
    at every moment a beginning of [safe_lines], and at the exit it is all
    of [safe_lines]: its entry line, a work line every 200ms from 200ms to
    1400ms, and at 1500ms its received line and the reason line for
    [context.Canceled]; and it has returned.  [leakyWorker] has never
    returned, and at the exit it has printed a work line every 500ms, up
    to 3000ms or up to 3500ms. *)
Theorem plain_demonstration_run :
  (forall k s, plain_path k s -> (k < 100)%nat) /\
  (forall s, plain_reach s -> succs itree_view body_of s = [] -> exited s = true) /\
  (forall s, plain_reach s ->
     (exists rest, safe_lines = lines_of (Started fn_safeWorker) s ++ rest) /\
     (forall b, In b (finished_of (Started fn_leakyWorker) s) -> b = false)) /\
  (forall s, plain_reach s -> exited s = true ->
     now s = 3500 /\
     lines_of (Started fn_safeWorker) s = safe_lines /\
     finished_of (Started fn_safeWorker) s = [true] /\
     (lines_of (Started fn_leakyWorker) s = plain_leaky_lines 6 \/
      lines_of (Started fn_leakyWorker) s = plain_leaky_lines 7)).
Proof.
  split; [exact plain_bounded|]. split; [exact plain_progress|]. split.
  - intros s Hr. plain_parts s Hr p.
    match goal with H : plain_ok_workers p = true |- _ =>
      unfold plain_ok_workers in H; apply andb_prop in H as [H _];
      apply andb_prop in H as [H1 H2] end.
    split; [now apply (prefixb_sound timed_line_eq_dec)|].
    apply none_finished. now apply negb_true_iff.
  - intros s Hr. plain_parts s Hr p. intros E.
    match goal with H : plain_ok_workers p = true |- _ =>
      unfold plain_ok_workers in H; apply andb_prop in H as [_ H];
      rewrite E in H; cbn [negb orb] in H;
      apply andb_prop in H as [H H4]; apply andb_prop in H as [H H3];
      apply andb_prop in H as [H1 H2] end.
    split; [now apply Z.eqb_eq|].
    split; [now apply (list_eqb_sound timed_line_eq_dec)|].
    split; [now apply (list_eqb_sound bool_dec)|].
    apply orb_prop in H3 as [H3|H3]; [left | right];
      now apply (list_eqb_sound timed_line_eq_dec).
Qed.

Lemma plain_demonstration_run_witness :
  lines_of (Started fn_safeWorker) (run_first itree_view body_of 100 plain) = safe_lines.
Proof.
  refine (proj1 (proj2 (proj2 (proj2 (proj2 plain_demonstration_run)) _
                          plain_end_reached _))).
  vm_compute. reflexivity.
Defined.

(** X3.  In the plain demonstration the operations of [main] that are not
    prints happen at these times: making the context and starting the two
    workers at 0ms, the call of [cancel] at 1500ms, the deferred call at the
    return of [main] at 3500ms.  The store holds one context, which is
    uncanceled up to the fourth of these operations; from the fifth on its
    done channel is closed and its [err] and its [cause] are
    [context.Canceled], and the deferred call leaves it so. *)
Theorem plain_controller_order (s : sys (itree goE unit)) :
  plain_reach s ->
  (exists rest, plain_protocol = protocol_of Main s ++ rest) /\
  (exited s = true -> protocol_of Main s = plain_protocol) /\
  ctxs s = plain_signal_after (List.length (protocol_of Main s)).
Proof.
  intros Hr. plain_parts s Hr p.
  match goal with H : plain_ok_controller p = true |- _ =>
    unfold plain_ok_controller in H; apply andb_prop in H as [H Hc];
    apply andb_prop in H as [Ha Hb] end.
  split; [now apply (prefixb_sound timed_label_eq_dec)|]. split.
  - intros E. rewrite E in Hb. now apply (list_eqb_sound timed_label_eq_dec).
  - now apply (list_eqb_sound cancelCtx_eq_dec).
Qed.

Lemma plain_controller_order_witness :
  protocol_of Main (run_first itree_view body_of 100 plain) = plain_protocol /\
  ctxs (run_first itree_view body_of 100 plain) =
    [mkCancelCtx true (Some Canceled) (Some Canceled)].
Proof.
  destruct (plain_controller_order _ plain_end_reached) as (_ & H2 & H3).
  assert (E : exited (run_first itree_view body_of 100 plain) = true)
    by (vm_compute; reflexivity).
  split.
  - exact (H2 E).
  - rewrite H3, (H2 E). reflexivity.
Defined.

(** X4.  In the plain demonstration the number of work lines
    [leakyWorker] has printed follows the clock, before and after the
    cancellation alike: at time [t] it is [t / 500], or one less when the
    line of that instant is still to come.  The number of work lines of
    [safeWorker] follows the clock up to seven, [t / 200] or one less, and
    is seven from 1500ms on: the cancellation stops the one worker and not
    the other. *)
Theorem plain_leak_goes_on (s : sys (itree goE unit)) :
  plain_reach s ->
  now s / 500 - 1 <= plain_leaky_work_count s <= now s / 500 /\
  Z.min (now s / 200) 7 - 1 <= safe_work_count s <= Z.min (now s / 200) 7 /\
  (1500 <= now s -> safe_work_count s = 7).
Proof.
  intros Hr. plain_parts s Hr p. unfold plain_leaky_work_count, safe_work_count.
  rewrite !lines_of_map.
  match goal with H : plain_ok_counts p = true |- _ =>
    unfold plain_ok_counts, plain_leaky_work_count, safe_work_count in H;
    apply andb_prop in H as [H H5]; apply andb_prop in H as [H H4];
    apply andb_prop in H as [H H3]; apply andb_prop in H as [H1 H2] end.
  apply Z.leb_le in H1, H2, H3, H4.
  split; [split; assumption|]. split; [split; assumption|].
  intros Hn. apply orb_prop in H5 as [H5|H5].
  - apply Z.ltb_lt in H5. lia.
  - now apply Z.eqb_eq.
Qed.

Lemma plain_leak_goes_on_witness :
  now (run_first itree_view body_of 100 plain) / 500 - 1
  <= plain_leaky_work_count (run_first itree_view body_of 100 plain)
  <= now (run_first itree_view body_of 100 plain) / 500.
Proof. exact (proj1 (plain_leak_goes_on _ plain_end_reached)). Defined.

(** ** What [main] says at its end is so *)

Lemma narration_sound (printed1 printed2 ex : bool) (A B : bool) :
  (negb printed1 || A) && (negb printed2 || B) && (negb ex || (printed1 && printed2)) = true ->
  (printed1 = true -> A = true) /\ (printed2 = true -> B = true) /\
  (ex = true -> printed1 = true /\ printed2 = true).
Proof.
  destruct printed1, printed2, ex, A, B; cbn; intros H; try discriminate; auto.
Qed.

(** X5.  In every execution of the plain demonstration: when [main] has
    printed that the safe worker has exited gracefully, [safeWorker] has
    returned and the ticker it made is stopped; when [main] has printed
    that the leaky worker is still running, [leakyWorker] has not returned;
    and [main] has printed both lines when the program exits. *)
Theorem plain_narration_truthful (s : sys (itree goE unit)) :
  plain_reach s ->
  (has_printed Main plain_graceful_line s = true ->
     finished_of (Started fn_safeWorker) s = [true] /\
     tickers_stopped s = true /\ tickers s <> []) /\
  (has_printed Main plain_leak_line s = true ->
     finished_of (Started fn_leakyWorker) s = [false]) /\
  (exited s = true ->
     has_printed Main plain_graceful_line s = true /\
     has_printed Main plain_leak_line s = true).
Proof.
  intros Hr. plain_parts s Hr p.
  unfold tickers_stopped. cbn [tickers map_sys].
  match goal with H : plain_ok_narration p = true |- _ =>
    unfold plain_ok_narration in H; apply narration_sound in H as (H1 & H2 & H3) end.
  split; [|split; [|exact H3]].
  - intros E. specialize (H1 E).
    apply andb_prop in H1 as [H1 Hn]. apply andb_prop in H1 as [Hf Hs].
    split; [now apply (list_eqb_sound bool_dec)|]. split; [exact Hs|].
    intros N. rewrite N in Hn. discriminate.
  - intros E. now apply (list_eqb_sound bool_dec), H2.
Qed.

Lemma plain_narration_truthful_witness :
  finished_of (Started fn_safeWorker) (run_first itree_view body_of 100 plain) = [true] /\
  finished_of (Started fn_leakyWorker) (run_first itree_view body_of 100 plain) = [false].
Proof.
  destruct (plain_narration_truthful _ plain_end_reached) as (H1 & H2 & H3).
  destruct (H3 ltac:(vm_compute; reflexivity)) as [E1 E2].
  split; [exact (proj1 (H1 E1)) | exact (H2 E2)].
Defined.

Lemma cause_narration_checked : check cause_ok_narration 100 [pdemo] = true.
Proof. vm_compute. reflexivity. Qed.

(** X6.  In every execution of the demonstration with a cause: when [main]
    has printed that Hogwarts has shut down gracefully, reporting the
    cause, [hogwarts] has returned, it has printed its cause line for
    [causeError], and the ticker it made is stopped; when [main] has printed
    that the Leaky Cauldron is still running, [leakyCauldron] has not
    returned; and [main] has printed both lines when the program exits. *)
Theorem cause_narration_truthful (s : sys (itree goE unit)) :
  demo_reach s ->
  (has_printed Main cause_graceful_line s = true ->
     finished_of (Started fn_hogwarts) s = [true] /\
     tickers_stopped s = true /\ tickers s <> [] /\
     has_printed (Started fn_hogwarts)
       (CauseDemo.hog_cause_line (Some CauseDemo.causeError)) s = true) /\
  (has_printed Main cause_leak_line s = true ->
     finished_of (Started fn_leakyCauldron) s = [false]) /\
  (exited s = true ->
     has_printed Main cause_graceful_line s = true /\
     has_printed Main cause_leak_line s = true).
Proof.
  intros Hr. destruct (reach_path _ _ _ _ _ Hr) as [k Hk].
  destruct (proj2 (demo_explored cause_ok_narration 100 cause_narration_checked k s Hk))
    as (p & -> & H).
  rewrite ?finished_of_map, ?has_printed_map.
  unfold tickers_stopped. cbn [tickers exited map_sys].
  unfold cause_ok_narration in H. apply narration_sound in H as (H1 & H2 & H3).
  split; [|split; [|exact H3]].
  - intros E. specialize (H1 E).
    apply andb_prop in H1 as [H1 Hc]. apply andb_prop in H1 as [H1 Hn].
    apply andb_prop in H1 as [Hf Hs].
    split; [now apply (list_eqb_sound bool_dec)|]. split; [exact Hs|].
    split; [|exact Hc]. intros N. rewrite N in Hn. discriminate.
  - intros E. now apply (list_eqb_sound bool_dec), H2.
Qed.

Lemma cause_narration_truthful_witness :
  finished_of (Started fn_hogwarts) (run_first itree_view body_of 100 demo) = [true] /\
  finished_of (Started fn_leakyCauldron) (run_first itree_view body_of 100 demo) = [false].
Proof.
  destruct (cause_narration_truthful _ demo_end_reached) as (H1 & H2 & H3).
  destruct (H3 ltac:(vm_compute; reflexivity)) as [E1 E2].
  split; [exact (proj1 (H1 E1)) | exact (H2 E2)].
Defined.

(** ** What a cooperative worker may do *)

Lemma forallb_prefix (P : label -> bool) (ls full : list label) :
  prefix_of ls full -> forallb P full = true -> forallb P ls = true.
Proof. intros [rest ->] H. rewrite forallb_app in H. now apply andb_prop in H. Qed.

Lemma worker_may_select (t : Ticker) (ctx : Context) (c : select_case) :
  worker_may t ctx (LSelect t ctx c) = true.
Proof. cbn. rewrite Nat.eqb_refl. now destruct (Context_eq_dec ctx ctx). Qed.

Lemma ticks_may (work : string) (t : Ticker) (ctx : Context) (n : nat) :
  forallb (worker_may t ctx) (ticks work t ctx n) = true.
Proof.
  induction n as [|n IH]; [reflexivity|].
  cbn [ticks forallb]. now rewrite worker_may_select, IH.
Qed.

Lemma coop_run_may (enter work received : string) (err_line : option error -> string)
    (extra : list label) (t : Ticker) (ctx : Context) (n : nat) (e : option error) :
  forallb (worker_may t ctx) extra = true ->
  forallb (worker_may t ctx)
    (coop_run enter work received err_line extra t ctx n e) = true.
Proof.
  intros He. unfold coop_run, coop_exit.
  rewrite !forallb_app, ticks_may, He. cbn [forallb].
  rewrite worker_may_select. cbn. rewrite Nat.eqb_refl.
  now destruct (Context_eq_dec ctx ctx).
Qed.

(** X7.  Whatever the environment answers, every operation of a
    cooperative worker is a print, the making of its ticker of 200ms, a
    [select] on that ticker and the context it was given, a read of
    [Err] or [Cause] of that context, or the stop of that ticker: the
    worker never cancels or makes a context, never starts a goroutine,
    never sleeps, and never touches another context or ticker. *)
Theorem workers_only_read (ctx : Context) (ls : list label) :
  (trace (CauseDemo.hogwarts ctx) ls ->
     exists t, forallb (worker_may t ctx) ls = true) /\
  (trace (PlainDemo.safeWorker ctx) ls ->
     exists t, forallb (worker_may t ctx) ls = true).
Proof.
  split; intros [u Hu].
  - destruct (hogwarts_runs ctx ls u Hu) as (t & k & e & c & Hp & _).
    exists t. apply (forallb_prefix _ _ _ Hp). apply coop_run_may.
    cbn. now destruct (Context_eq_dec ctx ctx).
  - destruct (safeWorker_runs ctx ls u Hu) as (t & k & e & Hp & _).
    exists t. apply (forallb_prefix _ _ _ Hp). now apply coop_run_may.
Qed.

Lemma workers_only_read_witness :
  exists t, forallb (worker_may t ctx0) (hog_run O ctx0 2 (Some Canceled) None) = true.
Proof.
  exact (proj1 (workers_only_read ctx0 (hog_run O ctx0 2 (Some Canceled) None))
           (halts_trace _ _ _ (hogwarts_halts ctx0 O 2 (Some Canceled) None))).
Defined.

(** ** One work line for every tick *)

Lemma prefix_of_cons_inv (l x : label) (ls full : list label) :
  prefix_of (l :: ls) (x :: full) -> l = x /\ prefix_of ls full.
Proof. intros [rest E]. injection E as -> ->. split; [reflexivity | now exists rest]. Qed.

Lemma count_prefix_le (P : label -> bool) (ls full : list label) :
  prefix_of ls full ->
  (List.length (filter P ls) <= List.length (filter P full))%nat.
Proof. intros [rest ->]. rewrite filter_app, length_app. lia. Qed.

Lemma ticks_prefix_counts (work : string) (t : Ticker) (ctx : Context)
    (tail : list label) (n : nat) :
  work_count work tail = 0%nat -> tick_count tail = 0%nat ->
  forall ls, prefix_of ls (ticks work t ctx n ++ tail) ->
  (work_count work ls <= tick_count ls <= S (work_count work ls))%nat.
Proof.
  intros Hw Ht. induction n as [|n IH]; intros ls Hp; cbn [ticks app] in Hp.
  - pose proof (count_prefix_le (is_print work) ls tail Hp).
    pose proof (count_prefix_le is_tick_select ls tail Hp).
    unfold work_count, tick_count in *. lia.
  - destruct ls as [|l ls]; [cbn; lia|].
    apply prefix_of_cons_inv in Hp as [-> Hp].
    destruct ls as [|l' ls]; [cbn; lia|].
    apply prefix_of_cons_inv in Hp as [-> Hp].
    specialize (IH ls Hp). unfold work_count, tick_count in *.
    cbn. rewrite String.eqb_refl. cbn. lia.
Qed.

Lemma ticks_counts (work : string) (t : Ticker) (ctx : Context) (n : nat) :
  work_count work (ticks work t ctx n) = n /\ tick_count (ticks work t ctx n) = n /\
  List.length (filter is_done_select (ticks work t ctx n)) = 0%nat.
Proof.
  unfold work_count, tick_count. induction n as [|n (IH1 & IH2 & IH3)]; [now cbn|].
  cbn. rewrite String.eqb_refl. cbn. now rewrite IH1, IH2, IH3.
Qed.

Section CoopCounts.

Variables enter work received : string.
Variable err_line : option error -> string.
Variable extra : list label.
Variables (t : Ticker) (ctx : Context) (e : option error).

Hypothesis enter_not_work : String.eqb enter work = false.
Hypothesis tail_no_work :
  work_count work (coop_exit received err_line t ctx e ++ extra ++ [LTickerStop t]) = 0%nat.
Hypothesis extra_no_select :
  List.length (filter (fun l => is_tick_select l || is_done_select l) extra) = 0%nat.

Lemma extra_no_tick : tick_count extra = 0%nat /\
  List.length (filter is_done_select extra) = 0%nat.
Proof.
  clear - extra_no_select. unfold tick_count.
  induction extra as [|l ls IH]; [now cbn|].
  cbn in *. destruct (is_tick_select l), (is_done_select l); cbn in *;
    try discriminate; auto.
Qed.

Lemma coop_prefix_counts (n : nat) (ls : list label) :
  prefix_of ls (coop_run enter work received err_line extra t ctx n e) ->
  (work_count work ls <= tick_count ls <= S (work_count work ls))%nat.
Proof.
  intros Hp. unfold coop_run in Hp. cbn [app] in Hp.
  destruct ls as [|l ls]; [cbn; lia|].
  apply prefix_of_cons_inv in Hp as [-> Hp].
  destruct ls as [|l' ls]; [unfold work_count, tick_count; cbn;
                            rewrite enter_not_work; cbn; lia|].
  apply prefix_of_cons_inv in Hp as [-> Hp].
  set (tail := coop_exit received err_line t ctx e ++ extra ++ [LTickerStop t]) in *.
  assert (Ht : tick_count tail = 0%nat).
  { unfold tail, tick_count, coop_exit. cbn.
    rewrite filter_app, length_app. cbn.
    pose proof (proj1 extra_no_tick) as E. unfold tick_count in E. now rewrite E. }
  pose proof (ticks_prefix_counts work t ctx tail n tail_no_work Ht ls Hp) as H.
  unfold work_count, tick_count in *. cbn. rewrite enter_not_work. cbn. exact H.
Qed.

Lemma coop_run_counts (n : nat) :
  let full := coop_run enter work received err_line extra t ctx n e in
  work_count work full = n /\ tick_count full = n /\
  List.length (filter is_done_select full) = 1%nat.
Proof.
  destruct (ticks_counts work t ctx n) as (T1 & T2 & T3).
  destruct extra_no_tick as [E1 E2].
  set (tail := coop_exit received err_line t ctx e ++ extra ++ [LTickerStop t]) in *.
  assert (Ht : tick_count tail = 0%nat).
  { unfold tail, tick_count, coop_exit. cbn.
    rewrite filter_app, length_app. cbn. unfold tick_count in E1. now rewrite E1. }
  assert (Hd : List.length (filter is_done_select tail) = 1%nat).
  { unfold tail, coop_exit. cbn. rewrite filter_app, length_app. cbn. now rewrite E2. }
  assert (Hh : List.length (filter (is_print work) [LPrint enter; LNewTicker 200 t]) = 0%nat)
    by (cbn; now rewrite enter_not_work).
  assert (Hw := tail_no_work).
  intros full. subst full.
  change (coop_run enter work received err_line extra t ctx n e)
    with ([LPrint enter; LNewTicker 200 t] ++ ticks work t ctx n ++ tail).
  unfold work_count, tick_count in *.
  rewrite !filter_app, !length_app, Hh, T1, T2, T3, Hw, Ht, Hd. cbn.
  repeat split; lia.
Qed.

End CoopCounts.

(** X8.  Whatever the environment answers, a cooperative worker prints its
    work line once for every turn that took the ticker case: at every
    moment the number of its work lines is the number of ticker cases
    taken, or one less when the line of the last one is still to come; and
    an execution that returns has as many work lines as ticker cases, and
    exactly one [select] that took the done case. *)
Theorem one_work_line_per_tick (ctx : Context) (ls : list label) :
  (trace (CauseDemo.hogwarts ctx) ls ->
     (work_count CauseDemo.hog_work ls <= tick_count ls
      <= S (work_count CauseDemo.hog_work ls))%nat) /\
  (forall r, halts (CauseDemo.hogwarts ctx) ls r ->
     work_count CauseDemo.hog_work ls = tick_count ls /\
     List.length (filter is_done_select ls) = 1%nat) /\
  (trace (PlainDemo.safeWorker ctx) ls ->
     (work_count PlainDemo.safe_work ls <= tick_count ls
      <= S (work_count PlainDemo.safe_work ls))%nat) /\
  (forall r, halts (PlainDemo.safeWorker ctx) ls r ->
     work_count PlainDemo.safe_work ls = tick_count ls /\
     List.length (filter is_done_select ls) = 1%nat).
Proof.
  assert (Hhog : forall t e c,
    work_count CauseDemo.hog_work
      (coop_exit CauseDemo.hog_received CauseDemo.hog_err_line t ctx e ++
       hog_extra ctx c ++ [LTickerStop t]) = 0%nat)
    by (intros t e c; destruct e, c; reflexivity).
  assert (Hsafe : forall t e,
    work_count PlainDemo.safe_work
      (coop_exit PlainDemo.safe_received PlainDemo.safe_reason_line t ctx e ++
       [] ++ [LTickerStop t]) = 0%nat)
    by (intros t e; destruct e; reflexivity).
  assert (Eh : String.eqb CauseDemo.hog_enter CauseDemo.hog_work = false) by reflexivity.
  assert (Es : String.eqb PlainDemo.safe_enter PlainDemo.safe_work = false) by reflexivity.
  split; [|split; [|split]].
  - intros [u Hu]. destruct (hogwarts_runs ctx ls u Hu) as (t & k & e & c & Hp & _).
    exact (coop_prefix_counts CauseDemo.hog_enter CauseDemo.hog_work CauseDemo.hog_received
             CauseDemo.hog_err_line (hog_extra ctx c) t ctx e Eh (Hhog t e c) eq_refl
             k ls Hp).
  - intros r (u & Hu & Hr).
    destruct (hogwarts_runs ctx ls u Hu) as (t & k & e & c & _ & Hret).
    rewrite (Hret r Hr).
    destruct (coop_run_counts CauseDemo.hog_enter CauseDemo.hog_work CauseDemo.hog_received
                CauseDemo.hog_err_line (hog_extra ctx c) t ctx e Eh (Hhog t e c) eq_refl k)
      as (H1 & H2 & H3).
    unfold hog_run. split; [congruence | exact H3].
  - intros [u Hu]. destruct (safeWorker_runs ctx ls u Hu) as (t & k & e & Hp & _).
    exact (coop_prefix_counts PlainDemo.safe_enter PlainDemo.safe_work
             PlainDemo.safe_received PlainDemo.safe_reason_line [] t ctx e Es (Hsafe t e)
             eq_refl k ls Hp).
  - intros r (u & Hu & Hr).
    destruct (safeWorker_runs ctx ls u Hu) as (t & k & e & _ & Hret).
    rewrite (Hret r Hr).
    destruct (coop_run_counts PlainDemo.safe_enter PlainDemo.safe_work
                PlainDemo.safe_received PlainDemo.safe_reason_line [] t ctx e Es (Hsafe t e)
                eq_refl k)
      as (H1 & H2 & H3).
    unfold safe_run. split; [congruence | exact H3].
Qed.

Lemma one_work_line_per_tick_witness :
  work_count CauseDemo.hog_work (hog_run O ctx0 3 (Some Canceled) None) =
  tick_count (hog_run O ctx0 3 (Some Canceled) None).
Proof.
  exact (proj1 (proj1 (proj2 (one_work_line_per_tick ctx0
                                (hog_run O ctx0 3 (Some Canceled) None)))
                  tt (hogwarts_halts ctx0 O 3 (Some Canceled) None))).
Defined.

(** ** What a worker reads once the done case is on offer *)

Lemma apply_keeps_settled (o : op) (s : store) : settled s -> settled (apply o s).
Proof.
  intros H.
  assert (Hfresh : settled (s ++ [newCancelCtx])).
  { intros p c Hl. rewrite lookup_fresh in Hl. destruct (lookup s p) eqn:E.
    - injection Hl as <-. eapply H; eauto.
    - destruct (Nat.eqb p (List.length s)); [|discriminate].
      injection Hl as <-. cbn. split; [discriminate | congruence]. }
  assert (Hupd : forall q cs, settled (update s q (fun c => cancel c Canceled cs))).
  { intros q cs p c Hl. destruct (Nat.eq_dec q p) as [->|Hq].
    - rewrite lookup_update_same in Hl. destruct (lookup s p) as [c0|] eqn:E;
        [|discriminate]. cbn in Hl. injection Hl as <-.
      specialize (H p c0 E). unfold cancel. destruct (err c0) eqn:Ee; [rewrite Ee; exact H|].
      cbn. split; [reflexivity|]. intros _. split; [reflexivity | discriminate].
    - rewrite lookup_update_other in Hl by exact Hq. eapply H; eauto. }
  destruct o; cbn; auto; apply Hupd.
Qed.

Lemma apply_all_keeps_settled (os : list op) (s : store) :
  settled s -> settled (apply_all os s).
Proof.
  revert s. induction os as [|o os IH]; intros s H; cbn; auto.
  apply IH, apply_keeps_settled, H.
Qed.

Lemma settled_nil : settled [].
Proof. intros p c Hl. destruct p; discriminate. Qed.

(** X9.  The store being built by calls of the package: when a [select] of
    a worker has the done case on offer for its context, then at that
    moment and after any further calls [ctx.Err()] is [context.Canceled],
    so the error line a cooperative worker prints after the done case is
    the one for [context.Canceled] whatever cause was given, and
    [context.Cause(ctx)] is not nil and is the same at every later read. *)
Theorem done_means_canceled (os later : list op) (t : Z) (ks : list ticker)
    (tk : Ticker) (ctx : Context) :
  In DoneCase (map (fun o => o_answer o) (respond t (apply_all os []) ks (Select tk ctx))) ->
  Done (apply_all later (apply_all os [])) ctx = true /\
  Err (apply_all later (apply_all os [])) ctx = Some Canceled /\
  Cause (apply_all later (apply_all os [])) ctx = Cause (apply_all os []) ctx /\
  Cause (apply_all os []) ctx <> None /\
  CauseDemo.hog_err_line (Err (apply_all later (apply_all os [])) ctx) =
    CauseDemo.hog_err_line (Some Canceled) /\
  PlainDemo.safe_reason_line (Err (apply_all later (apply_all os [])) ctx) =
    PlainDemo.safe_reason_line (Some Canceled).
Proof.
  intros Hin.
  assert (Hd : Done (apply_all os []) ctx = true).
  { cbn [respond] in Hin. rewrite map_app, in_app_iff in Hin. destruct Hin as [Hin|Hin].
    - destruct (tick_pending ks tk); cbn in Hin; [|contradiction].
      destruct Hin as [Hin|[]]. discriminate.
    - destruct (Done (apply_all os []) ctx); [reflexivity | contradiction]. }
  pose proof (apply_all_keeps_settled os [] settled_nil) as Hs.
  pose proof (apply_all_keeps_settled later _ Hs) as Hs'.
  destruct ctx as [|p]; [discriminate|]. cbn in Hd |- *.
  destruct (lookup (apply_all os []) p) as [c|] eqn:E; [|discriminate].
  destruct (Hs p c E) as [H1 H2]. specialize (H1 Hd).
  destruct H2 as [_ Hc]; [congruence|].
  destruct (cause c) as [C|] eqn:EC; [|congruence].
  destruct (apply_all_keeps_canceled later (apply_all os []) p C) as (c' & E' & Hd' & He' & Hc').
  { exists c. repeat split; auto. congruence. }
  rewrite E'. destruct (Hs' p c' E') as [H1' _]. rewrite (H1' Hd').
  repeat split; auto.
Qed.

Lemma done_means_canceled_witness :
  Err (apply_all [OpCancelCause cancel0 None]
         (apply_all [OpWithCancelCause; OpCancelCause cancel0 (Some CauseDemo.causeError)] []))
    ctx0 = Some Canceled /\
  Cause (apply_all [OpCancelCause cancel0 None]
           (apply_all [OpWithCancelCause; OpCancelCause cancel0 (Some CauseDemo.causeError)] []))
    ctx0 = Some CauseDemo.causeError.
Proof.
  destruct (done_means_canceled
              [OpWithCancelCause; OpCancelCause cancel0 (Some CauseDemo.causeError)]
              [OpCancelCause cancel0 None] 1500 [] O ctx0)
    as (_ & H2 & H3 & _).
  - cbn. now left.
  - split; [exact H2 | rewrite H3; reflexivity].
Defined.
